(** * TimeSeriesMirror: the broadcast hub of [server.go]

    A shallow embedding of [server.go]: the record encoder, the line
    classifier and the de-duplicating ingestion loop of [fileIn], the
    registry [clients] with its buffered channels, the non-blocking fan-out,
    and the HTTP handlers [registerHandler] and [socketHandler] with the
    delivery loop and its deferred teardown.

    Go strings are byte strings: they are [string] here, one [ascii] per
    byte.  A byte is a [Z] in [0, 256).  A channel lives in a heap of
    channels and is named by its address, so that the registry and a
    delivery loop can hold the same channel.  Every critical section under
    [clients_lock] is one atomic step. *)

From Stdlib Require Import ZArith Lia Ascii String.
From stdpp Require Import base option list strings pretty gmap fin_maps.

Local Open Scope Z_scope.

(** ** Bytes and the 17-byte record (server.go, lines 86-97) *)

(** A Go [byte(x)] conversion keeps the low eight bits. *)
Definition byte (x : Z) : Z := Z.land x 255.

(** A [float64] by its IEEE-754 fields: sign bit, 11-bit biased exponent and
    52-bit fraction.  NaN payloads are kept, as the bits are. *)
Record float64 := Float64 { f_sign : bool; f_exp : Z; f_frac : Z }.

Definition float64_ok (f : float64) : Prop :=
  0 <= f_exp f < 2 ^ 11 /\ 0 <= f_frac f < 2 ^ 52.

(** [math.Float64bits]: the IEEE-754 binary representation, sign in bit 63. *)
Definition Float64bits (f : float64) : Z :=
  Z.lor (Z.shiftl (Z.b2z (f_sign f)) 63)
        (Z.lor (Z.shiftl (f_exp f) 52) (f_frac f)).

(** [math.Float64frombits], the inverse reading. *)
Definition Float64frombits (b : Z) : float64 :=
  {| f_sign := Z.testbit b 63;
     f_exp := Z.land (Z.shiftr b 52) (2 ^ 11 - 1);
     f_frac := Z.land b (2 ^ 52 - 1) |}.

(** [binary.LittleEndian.PutUint64] on an 8-byte array. *)
Definition PutUint64 (v : Z) : list Z :=
  [ byte v; byte (Z.shiftr v 8); byte (Z.shiftr v 16); byte (Z.shiftr v 24);
    byte (Z.shiftr v 32); byte (Z.shiftr v 40); byte (Z.shiftr v 48);
    byte (Z.shiftr v 56) ].

(** [binary.LittleEndian.Uint64]; [None] where Go's bounds check panics. *)
Definition Uint64 (b : list Z) : option Z :=
  match b with
  | b0 :: b1 :: b2 :: b3 :: b4 :: b5 :: b6 :: b7 :: _ =>
      Some (Z.lor b0 (Z.lor (Z.shiftl b1 8) (Z.lor (Z.shiftl b2 16)
           (Z.lor (Z.shiftl b3 24) (Z.lor (Z.shiftl b4 32)
           (Z.lor (Z.shiftl b5 40) (Z.lor (Z.shiftl b6 48)
                  (Z.shiftl b7 56))))))))
  | _ => None
  end.

Definition msg := list Z.

(** Lines 86-97: [distByte], [latByte], [longByte] and the three appends.
    [dist] is the [int] read from [distMap]. *)
Definition encode (dist : Z) (lat long : float64) : msg :=
  let distByte := byte dist in
  let latByte := PutUint64 (Float64bits lat) in
  let longByte := PutUint64 (Float64bits long) in
  ([distByte] ++ latByte) ++ longByte.

(** Modelled from the spec: the decoder of the 17-byte frame is not part of
    [server.go] (the browser client reads the frames).  Following the frame
    format of the spec: byte 0 is the category index, bytes 1-8 the latitude
    and bytes 9-16 the longitude, both little-endian IEEE-754 doubles. *)
Definition decode (m : msg) : option (Z * float64 * float64) :=
  if decide (length m = 17%nat) then
    match m with
    | c :: rest =>
        lat ← Uint64 (take 8 rest);
        long ← Uint64 (take 8 (drop 8 rest));
        Some (c, Float64frombits lat, Float64frombits long)
    | [] => None
    end
  else None.

(** ** String helpers of the classifier *)

(** [strings.SplitN s sep n] with a one-byte separator, as [fileIn] calls it
    (["-"] and [" "]).  [genSplit sep k s] cuts at the first [k] separators:
    Go's loop [for i < n] around [Index], with [k = n - 1]. *)
Fixpoint genSplit (sep : ascii) (k : nat) (s : string) : list string :=
  match s with
  | EmptyString => [EmptyString]
  | String c r =>
      match k with
      | O => [s]
      | S k' =>
          if Ascii.eqb c sep then EmptyString :: genSplit sep k' r
          else match genSplit sep k r with
               | h :: t => String c h :: t
               | [] => [String c EmptyString]
               end
      end
  end.

(** [n = 0] gives no substring, [n < 0] all of them (at most [len s] cuts),
    [n > 0] at most [n] substrings. *)
Definition SplitN (s : string) (sep : ascii) (n : Z) : list string :=
  if n =? 0 then []
  else if n <? 0 then genSplit sep (String.length s) s
  else genSplit sep (Z.to_nat (n - 1)) s.

(** [strings.Join]. *)
Fixpoint Join (elems : list string) (sep : string) : string :=
  match elems with
  | [] => EmptyString
  | [x] => x
  | x :: rest => (x ++ sep ++ Join rest sep)%string
  end.

(** [strings.Replace s old new (-1)] with a one-byte [old]: every occurrence
    is replaced. *)
Fixpoint Replace (s : string) (old : ascii) (new : string) : string :=
  match s with
  | EmptyString => EmptyString
  | String c r =>
      if Ascii.eqb c old then (new ++ Replace r old new)%string
      else String c (Replace r old new)
  end.

(** Lines 32-35. *)
Definition getIp (line : string) : string :=
  let foundIp := hd EmptyString (SplitN line "-"%char 2) in
  foundIp.

(** ** The regular expression [\/(.*?)\/] (line 72) *)

Definition slash : ascii := "/"%char.
Definition newline : ascii := "010"%char.

(** [(.*?)\/] at the head of [s]: the lazy star takes as few characters as
    it can, so the match ends at the first ['/']; [.] does not match a
    newline.  Gives the matched text and what follows it. *)
Fixpoint lazy_dots_slash (s : string) : option (string * string) :=
  match s with
  | EmptyString => None
  | String c r =>
      if Ascii.eqb c slash then Some (String c EmptyString, r)
      else if Ascii.eqb c newline then None
      else match lazy_dots_slash r with
           | Some (m, rest) => Some (String c m, rest)
           | None => None
           end
  end.

(** The whole expression anchored at the head of [s]. *)
Definition match_here (s : string) : option (string * string) :=
  match s with
  | EmptyString => None
  | String c r =>
      if Ascii.eqb c slash then
        match lazy_dots_slash r with
        | Some (m, rest) => Some (String c m, rest)
        | None => None
        end
      else None
  end.

(** Leftmost matches, one after the other, none overlapping: the search for
    the next match starts where the last one ended.  Every step consumes a
    byte, so [len s] steps are enough ([FindAll_fuel]). *)
Fixpoint FindAll (fuel : nat) (s : string) : list string :=
  match fuel with
  | O => []
  | S fuel' =>
      match s with
      | EmptyString => []
      | String _ r =>
          match match_here s with
          | Some (m, rest) => m :: FindAll fuel' rest
          | None => FindAll fuel' r
          end
      end
  end.

(** [reDist.FindAllString(line, -1)]. *)
Definition FindAllString (line : string) : list string :=
  FindAll (String.length line) line.

(** ** The vocabulary (lines 43-47) *)

Definition distList : list string :=
  [ "alpine"; "archlinux"; "archlinux32"; "artix-linux"; "blender"; "centos";
    "clonezilla"; "cpan"; "cran"; "ctan"; "cygwin"; "debian"; "debian-cd";
    "eclipse"; "freebsd"; "gentoo"; "gentoo-portage"; "gparted"; "ipfire";
    "isabelle"; "linux"; "linuxmint"; "manjaro"; "msys2"; "odroid"; "openbsd";
    "opensuse"; "parrot"; "raspbian"; "RebornOS"; "ros"; "sabayon"; "serenity";
    "slackware"; "slitaz"; "tdf"; "templeos"; "ubuntu"; "ubuntu-cdimage";
    "ubuntu-ports"; "ubuntu-releases"; "videolan"; "voidlinux"; "zorinos"
  ]%string.

(** [for i, dist := range distList { distMap[dist] = i }], from index [i]. *)
Fixpoint fill_distMap (i : Z) (l : list string) (m : gmap string Z)
  : gmap string Z :=
  match l with
  | [] => m
  | dist :: rest => fill_distMap (i + 1) rest (<[dist := i]> m)
  end.

Definition distMap : gmap string Z := fill_distMap 0 distList ∅.

(** Reading a Go map: the zero value when the key is absent. *)
Definition map_index (m : gmap string Z) (k : string) : Z := default 0 (m !! k).

(** Lines 78-80: the name looked up in [distMap]. *)
Definition distro_name (match1 : string) : string :=
  let foundDistro := SplitN match1 " "%char (-1) in
  let nfoundDistro := Join foundDistro EmptyString in
  Replace nfoundDistro slash EmptyString.

(** ** The loop body of [fileIn] (lines 55-97) *)

(** What [fileIn] takes from outside the repository: [strings.TrimSpace],
    [net.ParseIP] ([None] is the nil address) and the opened database's
    [City] ([None] is [err != nil], otherwise the latitude and longitude of
    the result). *)
Record extern := Extern {
  TrimSpace : string -> string;
  ParseIP : string -> option (list Z);
  City : option (list Z) -> option (float64 * float64)
}.

(** How one iteration ends. *)
Inductive outcome :=
| SkipSameIp                (* line 58: continue *)
| SkipEmptyIp               (* line 61: continue *)
| ReturnErr                 (* line 69: return, the loop is over *)
| SkipSegments              (* line 76: continue *)
| Send (m : msg).           (* lines 99-109: fan-out of msg *)

(** The iteration on [line], with [prevIp] before and after. *)
Definition fileIn_body (E : extern) (prevIp line : string) : outcome * string :=
  let ip := getIp line in
  if String.eqb ip prevIp then (SkipSameIp, prevIp)
  else if String.eqb ip EmptyString then (SkipEmptyIp, prevIp)
  else
    let prevIp := ip in
    let ipNew := ParseIP E (TrimSpace E ip) in
    match City E ipNew with
    | None => (ReturnErr, prevIp)
    | Some (lat, long) =>
        let listDistro := FindAllString line in
        if (length listDistro <? 2)%nat then (SkipSegments, prevIp)
        else
          let nfoundDistro := distro_name (nth 1 listDistro EmptyString) in
          (Send (encode (map_index distMap nfoundDistro) lat long), prevIp)
    end.

(** The iterations in which the resolver [db.City] is called (line 66) and,
    unless it fails, the expression is matched (line 73). *)
Definition classifies (o : outcome) : bool :=
  match o with
  | SkipSameIp | SkipEmptyIp => false
  | ReturnErr | SkipSegments | Send _ => true
  end.

(** The outcome of every iteration the loop runs on the lines of the feed:
    none after a [return]. *)
Fixpoint fileIn_trace (E : extern) (prevIp : string) (lines : list string)
  : list outcome :=
  match lines with
  | [] => []
  | line :: rest =>
      match fileIn_body E prevIp line with
      | (ReturnErr, _) => [ReturnErr]
      | (o, prevIp') => o :: fileIn_trace E prevIp' rest
      end
  end.

(** The records handed to the fan-out, in order. *)
Definition sent (t : list outcome) : list msg :=
  omap (fun o => match o with Send m => Some m | _ => None end) t.

(** ** Channels and the registry (lines 27-28, 161) *)

(** A buffered channel: its capacity and the values waiting in it, oldest
    first. *)
Record chan := Chan { ch_cap : nat; ch_buf : list msg }.

(** [make(chan []byte, cap)]. *)
Definition make_chan (cap : nat) : chan := Chan cap [].

(** A send that does not wait: [None] when the send would block. *)
Definition try_send (m : msg) (c : chan) : option chan :=
  if decide (length (ch_buf c) < ch_cap c)%nat
  then Some (Chan (ch_cap c) (ch_buf c ++ [m]))
  else None.

(** A receive that does not wait: [None] when [<-ch] would block. *)
Definition try_recv (c : chan) : option (msg * chan) :=
  match ch_buf c with
  | val :: rest => Some (val, Chan (ch_cap c) rest)
  | [] => None
  end.

(** A [socketHandler] call past the upgrade: the identifier of its request,
    the channel it read from the registry ([None] is Go's nil channel, the
    zero value read for an unknown key), whether the peer still holds the
    connection, whether [conn.Close] was called, whether the delivery loop
    runs, and two logs: the values received from the channel and the frames
    written to the connection. *)
Record handler := Handler {
  h_id : string;
  h_ch : option nat;
  h_peer : bool;
  h_closed : bool;
  h_running : bool;
  h_recv : list msg;
  h_written : list msg
}.

(** The process: the heap of channels (a channel is named by its position,
    a new one is added at the end), the registry [clients] and the
    [socketHandler] calls past the upgrade, by connection number. *)
Record server := Server {
  heap : list chan;
  clients : gmap string nat;
  conns : list handler
}.

(** [main], line 190: no channel, an empty registry, no connection. *)
Definition init : server := Server [] ∅ [].

(** Lines 103-107: [select { case ch <- msg: default: }] on the channel at
    [r]. *)
Definition offer (m : msg) (r : nat) (h : list chan) : list chan :=
  match h !! r with
  | Some c =>
      match try_send m c with
      | Some c' => <[r := c']> h
      | None => h                (* default: the data is dropped *)
      end
  | None => h
  end.

(** Lines 99-109 with the entries of [clients] visited in [order]: Go leaves
    the order of [range] over a map open. *)
Definition publish_in (order : list (string * nat)) (m : msg) (s : server)
  : server :=
  Server (foldl (fun h e => offer m e.2 h) (heap s) order) (clients s) (conns s).

Definition publish (m : msg) (s : server) : server :=
  publish_in (map_to_list (clients s)) m s.

(** [fileIn] on the lines of the feed, against the hub. *)
Fixpoint fileIn (E : extern) (prevIp : string) (lines : list string)
  (s : server) : server :=
  match lines with
  | [] => s
  | line :: rest =>
      match fileIn_body E prevIp line with
      | (ReturnErr, _) => s
      | (Send m, prevIp') => fileIn E prevIp' rest (publish m s)
      | (_, prevIp') => fileIn E prevIp' rest s
      end
  end.

(** ** The handlers (lines 113-175) *)

Inductive response :=
| Status (code : Z) (body : string)   (* WriteHeader and Write *)
| UpgradeError                        (* Upgrade failed and replied itself *)
| Upgraded (conn : nat).              (* the connection is a websocket *)

(** Lines 155-168.  [id] is what [randstr.Hex(16)] returned. *)
Definition registerHandler (id : string) (s : server) : server * response :=
  (Server (heap s ++ [make_chan 10]) (<[id := length (heap s)]> (clients s))
          (conns s),
   Status 200 id).

(** Lines 113-142, up to the delivery loop.  [upgrade_ok] tells whether
    [upgrader.Upgrade] succeeded. *)
Definition socketHandler (id : string) (upgrade_ok : bool) (s : server)
  : server * response :=
  if String.eqb id EmptyString then (s, Status 404 EmptyString)
  else
    let ch := clients s !! id in
    if upgrade_ok then
      (Server (heap s) (clients s)
              (conns s ++ [Handler id ch true false true [] []]),
       Upgraded (length (conns s)))
    else (s, UpgradeError).

(** One turn of the loop of lines 144-152 in the handler of connection [c],
    and the deferred function of lines 135-142 when the loop breaks.  [None]
    when the handler cannot move: its loop is over, or [<-ch] blocks (the
    channel is nil or empty).  [write_ok] tells whether [WriteMessage]
    returned no error, the only thing line 149 tests: a write may well
    return nil after the peer has gone.  The turn is taken as a whole, from
    the receive to the end of the write or of the deferred function. *)
Definition deliver (c : nat) (write_ok : bool) (s : server) : option server :=
  h ← conns s !! c;
  if h_running h then
    r ← h_ch h;
    ch ← heap s !! r;
    '(val, ch') ← try_recv ch;
    let heap' := <[r := ch']> (heap s) in
    if write_ok then
      Some (Server heap' (clients s)
              (<[c := Handler (h_id h) (h_ch h) (h_peer h) (h_closed h) true
                        (h_recv h ++ [val]) (h_written h ++ [val])]> (conns s)))
    else
      Some (Server heap' (delete (h_id h) (clients s))
              (<[c := Handler (h_id h) (h_ch h) (h_peer h) true false
                        (h_recv h ++ [val]) (h_written h)]> (conns s)))
  else None.

(** The peer of connection [c] goes away.  No code of the server runs. *)
Definition peer_close (c : nat) (s : server) : option server :=
  h ← conns s !! c;
  Some (Server (heap s) (clients s)
          (<[c := Handler (h_id h) (h_ch h) false (h_closed h) (h_running h)
                    (h_recv h) (h_written h)]> (conns s))).

(** What can happen to the process, one atomic step each. *)
Inductive action :=
| Register (id : string)
| Upgrade (id : string) (upgrade_ok : bool)
| Deliver (c : nat) (write_ok : bool)
| PeerClose (c : nat)
| Publish (m : msg).

Definition step (a : action) (s : server) : option server :=
  match a with
  | Register id => Some (registerHandler id s).1
  | Upgrade id ok => Some (socketHandler id ok s).1
  | Deliver c ok => deliver c ok s
  | PeerClose c => peer_close c s
  | Publish m => Some (publish m s)
  end.

Fixpoint run (acts : list action) (s : server) : option server :=
  match acts with
  | [] => Some s
  | a :: rest => s' ← step a s; run rest s'
  end.

(** ** Auxiliary definitions of the statements *)

(** The registry names channels of the heap, none of them twice, and the
    channel of a handler is in the heap.  Every state reached from [init]
    is so ([wf_after]). *)
Record wf (s : server) : Prop := {
  wf_bound : forall id r, clients s !! id = Some r -> (r < length (heap s))%nat;
  wf_inj : forall id1 id2 r,
      clients s !! id1 = Some r -> clients s !! id2 = Some r -> id1 = id2;
  wf_conn : forall c h r,
      conns s !! c = Some h -> h_ch h = Some r -> (r < length (heap s))%nat
}.

(** The teardown of lines 135-142 has run in the handler of connection [c]
    for [id]: the loop is over, the transport closed, [id] out of the
    registry. *)
Definition torn_down (c : nat) (id : string) (s : server) : Prop :=
  (exists h, conns s !! c = Some h /\ h_id h = id /\
             h_running h = false /\ h_closed h = true) /\
  clients s !! id = None.

(** The records published by a run, in order. *)
Definition published (acts : list action) : list msg :=
  omap (fun a => match a with Publish m => Some m | _ => None end) acts.

(** The buffer of the channel at [r]. *)
Definition buffer (r : nat) (s : server) : list msg :=
  from_option ch_buf [] (heap s !! r).

(** The channel at [r] is in the registry and not full. *)
Definition accepts (r : nat) (s : server) : Prop :=
  (exists id, clients s !! id = Some r) /\
  (exists ch, heap s !! r = Some ch /\ (length (ch_buf ch) < ch_cap ch)%nat).

(** A run during which every publish finds the channel at [r] registered
    and not full, and no further delivery loop is attached to it. *)
Fixpoint undropped (r : nat) (acts : list action) (s : server) : Prop :=
  match acts with
  | [] => True
  | a :: rest =>
      match a with
      | Publish _ => accepts r s
      | Upgrade id _ => clients s !! id ≠ Some r
      | _ => True
      end /\
      match step a s with
      | Some s' => undropped r rest s'
      | None => False
      end
  end.

(** What the fan-out leaves of a channel offered [m]. *)
Definition offered (m : msg) (c : chan) : chan :=
  if decide (length (ch_buf c) < ch_cap c)%nat
  then Chan (ch_cap c) (ch_buf c ++ [m])
  else c.

(** The state after a run from [init]. *)
Definition after (acts : list action) : server := default init (run acts init).

(** The handler of connection [c] is the only one that holds the channel at
    [r]. *)
Definition only_loop (c r : nat) (s : server) : Prop :=
  forall c' h', conns s !! c' = Some h' -> h_ch h' = Some r -> c' = c.

(** Several records published one after the other. *)
Definition publish_all (ms : list msg) (s : server) : server :=
  foldl (fun s m => publish m s) s ms.

(** The name that lines 78-80 take from the second match of [line]. *)
Definition category_name (line : string) : string :=
  distro_name (nth 1 (FindAllString line) EmptyString).

(** [prevIp] after the loop has run on [lines]; [None] after a [return]. *)
Fixpoint fileIn_prev (E : extern) (prevIp : string) (lines : list string)
  : option string :=
  match lines with
  | [] => Some prevIp
  | line :: rest =>
      match fileIn_body E prevIp line with
      | (ReturnErr, _) => None
      | (_, prevIp') => fileIn_prev E prevIp' rest
      end
  end.

(** A text with neither a ['/'] nor a newline. *)
Fixpoint plain (s : string) : bool :=
  match s with
  | EmptyString => true
  | String c r => negb (Ascii.eqb c slash) && negb (Ascii.eqb c newline) && plain r
  end.

(** ** Concrete inputs: a stand-in for the outside, records, runs, feeds *)

Fixpoint ltrim (s : string) : string :=
  match s with
  | String c r => if Ascii.eqb c " "%char then ltrim r else s
  | EmptyString => EmptyString
  end.

Fixpoint rtrim (s : string) : string :=
  match s with
  | EmptyString => EmptyString
  | String c r =>
      match rtrim r with
      | EmptyString => if Ascii.eqb c " "%char then EmptyString
                       else String c EmptyString
      | r' => String c r'
      end
  end.

(** 51.5 and -0.1 as doubles: 0x4049C00000000000 and 0xBFB999999999999A. *)
Definition f64_51_5 : float64 := Float64 false 1028 0x9C00000000000.
Definition f64_m0_1 : float64 := Float64 true 1019 0x999999999999A.
Definition f64_zero : float64 := Float64 false 0 0.

(** Two addresses parse; the database knows one of them, gives the zero
    location for the other and an error for the nil address. *)
Definition stub : extern :=
  {| TrimSpace := fun s => rtrim (ltrim s);
     ParseIP := fun s =>
       if String.eqb s "203.0.113.5" then Some [203; 0; 113; 5]
       else if String.eqb s "198.51.100.7" then Some [198; 51; 100; 7]
       else None;
     City := fun ip =>
       match ip with
       | None => None
       | Some [203; 0; 113; 5] => Some (f64_51_5, f64_m0_1)
       | Some _ => Some (f64_zero, f64_zero)
       end |}.

(** One record, and a hub with a full queue for ["aa"] and an empty one for
    ["bb"]. *)
Definition rec0 : msg := encode 37 f64_51_5 f64_m0_1.
Definition full_and_empty : list action :=
  Register "aa" :: replicate 10 (Publish rec0) ++ [Register "bb"].

(** Two more records, and a run in which the subscriber ["ab"] keeps up
    with three publishes. *)
Definition rec1 : msg := encode 11 f64_zero f64_zero.
Definition rec2 : msg := encode 0 f64_m0_1 f64_51_5.
Definition one_subscriber : list action := [Register "ab"; Upgrade "ab" true].
Definition keeps_up : list action :=
  [Publish rec0; Publish rec1; Deliver 0 true; Publish rec2;
   Deliver 0 true; Deliver 0 true].

(** A line whose address does not parse, and one that the database knows. *)
Definition bad_line : string := "not.an.ip - GET /pub/x/ubuntu/dists HTTP/1.1".
Definition good_line : string := "203.0.113.5 - GET /pub/x/ubuntu/dists HTTP/1.1".

(** A feed with a burst of three lines of one client. *)
Definition feed_pre : list string :=
  ["198.51.100.7 - GET /a/b/ubuntu/ HTTP/1.1"%string].
Definition feed_run : list string :=
  ["203.0.113.5 - GET /pub/x/ubuntu/dists HTTP/1.1";
   "203.0.113.5 - GET /pub/x/debian/dists HTTP/1.1";
   "203.0.113.5 - GET /pub/x/alpine/v3 HTTP/1.1"]%string.
Definition feed_post : list string :=
  ["198.51.100.7 - GET /a/b/ubuntu/ HTTP/1.1"%string].

(** ** The health handler and the invariants of the hub *)

(** Lines 170-175: [fmt.Sprint(len(clients))], the size of the registry in
    decimal. *)
Definition healthHandler (s : server) : response :=
  Status 200 (pretty (size (clients s))).

(** How often the byte [c] occurs in [s]. *)
Fixpoint count_char (c : ascii) (s : string) : nat :=
  match s with
  | EmptyString => O
  | String x r => ((if Ascii.eqb x c then 1 else 0) + count_char c r)%nat
  end.

(** [s] without the bytes [c]. *)
Fixpoint remove_char (c : ascii) (s : string) : string :=
  match s with
  | EmptyString => EmptyString
  | String x r => if Ascii.eqb x c then remove_char c r
                  else String x (remove_char c r)
  end.

(** A channel as [registerHandler] makes them, with no more in it than it
    holds. *)
Definition chan_ok (ch : chan) : Prop :=
  ch_cap ch = 10%nat /\ (length (ch_buf ch) <= 10)%nat.

(** What a handler has written to its connection is what it has received
    from its queue, in order, but for at most the last value received. *)
Definition writes_received (h : handler) : Prop :=
  exists tail, h_recv h = h_written h ++ tail /\ (length tail <= 1)%nat.

(** Between two turns of its loop, which is where the steps of [run] leave
    it, a handler either runs, with every value it received written, or is
    torn down, with every value written but the last it received. *)
Definition handler_ok (h : handler) : Prop :=
  (h_running h = true /\ h_closed h = false /\ h_recv h = h_written h) \/
  (h_running h = false /\ h_closed h = true /\
   exists val, h_recv h = h_written h ++ [val]).

(** Gaps and matches, one after the other: [gap ++ match ++ ...]. *)
Fixpoint flat (pairs : list (string * string)) : string :=
  match pairs with
  | [] => EmptyString
  | (gap, m) :: rest => (gap ++ m ++ flat rest)%string
  end.

(** Two connections on the identifier ["ab"] and one record published. *)
Definition twin_run : list action :=
  [Register "ab"; Upgrade "ab" true; Upgrade "ab" true; Publish rec0].

(** ** Theorems *)

Lemma byte_range x : 0 <= byte x < 256.
Proof.
  unfold byte. change 255 with (Z.ones 8). rewrite Z.land_ones by lia.
  apply Z.mod_pos_bound. lia.
Qed.

Lemma testbit_byte_at v k n :
  0 <= k -> 0 <= n ->
  Z.testbit (Z.shiftl (byte (Z.shiftr v k)) k) n
  = Z.testbit v n && ((k <=? n) && (n <? k + 8)).
Proof.
  intros Hk Hn. unfold byte. change 255 with (Z.ones 8).
  rewrite Z.shiftl_spec by lia.
  destruct (Z.leb_spec k n); simpl.
  - rewrite Z.land_spec, Z.shiftr_spec by lia.
    replace (n - k + k) with n by lia.
    destruct (Z.ltb_spec n (k + 8)).
    + rewrite Z.ones_spec_low by lia. reflexivity.
    + rewrite Z.ones_spec_high by lia. reflexivity.
  - rewrite Z.testbit_neg_r by lia. rewrite andb_false_r. reflexivity.
Qed.

Lemma testbit_above v w n :
  0 <= w -> 0 <= v < 2 ^ w -> w <= n -> Z.testbit v n = false.
Proof.
  intros Hw Hv Hn. destruct (Z.eq_dec v 0) as [->|Hne]; [apply Z.testbit_0_l|].
  apply Z.bits_above_log2; [lia|].
  apply Z.lt_le_trans with w; [|lia]. apply Z.log2_lt_pow2; lia.
Qed.

Lemma Uint64_PutUint64 v : 0 <= v < 2 ^ 64 -> Uint64 (PutUint64 v) = Some v.
Proof.
  intros Hv. unfold Uint64, PutUint64. f_equal.
  apply Z.bits_inj'. intros n Hn.
  rewrite <- (Z.shiftl_0_r (byte v)). rewrite <- (Z.shiftr_0_r v) at 1.
  rewrite !Z.lor_spec, !testbit_byte_at by lia.
  destruct (Z.ltb_spec n 64) as [Hlt|Hge].
  - destruct (Z.testbit v n); simpl; [|reflexivity].
    repeat match goal with
           | |- context [?a <=? ?b] => destruct (Z.leb_spec a b)
           | |- context [?a <? ?b] => destruct (Z.ltb_spec a b)
           end; simpl; try reflexivity; lia.
  - rewrite (testbit_above v 64 n) by lia. reflexivity.
Qed.

Lemma Float64frombits_Float64bits f :
  float64_ok f -> Float64frombits (Float64bits f) = f.
Proof.
  destruct f as [s e m]. unfold float64_ok, Float64bits, Float64frombits.
  cbn [f_sign f_exp f_frac]. intros [He Hm]. f_equal.
  - rewrite !Z.lor_spec, !Z.shiftl_spec by lia.
    rewrite (testbit_above e 11 (63 - 52)) by lia.
    rewrite (testbit_above m 52 63) by lia.
    rewrite !orb_false_r. destruct s; reflexivity.
  - apply Z.bits_inj'. intros n Hn.
    change (2 ^ 11 - 1) with (Z.ones 11).
    rewrite Z.land_spec, Z.shiftr_spec, !Z.lor_spec, !Z.shiftl_spec by lia.
    replace (n + 52 - 52) with n by lia.
    rewrite (testbit_above m 52 (n + 52)) by lia. rewrite orb_false_r.
    destruct (Z.ltb_spec n 11).
    + rewrite Z.ones_spec_low by lia. rewrite Z.testbit_neg_r by lia.
      rewrite andb_true_r. reflexivity.
    + rewrite Z.ones_spec_high by lia. rewrite (testbit_above e 11 n) by lia.
      rewrite andb_false_r. reflexivity.
  - apply Z.bits_inj'. intros n Hn.
    change (2 ^ 52 - 1) with (Z.ones 52).
    rewrite Z.land_spec, !Z.lor_spec, !Z.shiftl_spec by lia.
    destruct (Z.ltb_spec n 52).
    + rewrite Z.ones_spec_low by lia.
      rewrite !Z.testbit_neg_r by lia. rewrite andb_true_r. reflexivity.
    + rewrite Z.ones_spec_high by lia. rewrite (testbit_above m 52 n) by lia.
      rewrite andb_false_r. reflexivity.
Qed.

Lemma Float64bits_range f : float64_ok f -> 0 <= Float64bits f < 2 ^ 64.
Proof.
  destruct f as [s e m]. unfold float64_ok, Float64bits.
  cbn [f_sign f_exp f_frac]. intros [He Hm].
  set (x := Z.lor _ _).
  assert (H0 : 0 <= x).
  { apply Z.lor_nonneg. split; [apply Z.shiftl_nonneg; destruct s; simpl; lia|].
    apply Z.lor_nonneg. split; [apply Z.shiftl_nonneg|]; lia. }
  split; [exact H0|].
  destruct (Z.eq_dec x 0) as [Hz|Hne]; [rewrite Hz; reflexivity|].
  apply Z.log2_lt_pow2; [lia|].
  destruct (Z.lt_ge_cases (Z.log2 x) 64) as [Hlt|Hge]; [exact Hlt|exfalso].
  assert (Hbit : Z.testbit x (Z.log2 x) = true) by (apply Z.bit_log2; lia).
  set (n := Z.log2 x) in *. unfold x in Hbit.
  rewrite !Z.lor_spec, !Z.shiftl_spec in Hbit by lia.
  rewrite (testbit_above e 11 (n - 52)) in Hbit by lia.
  rewrite (testbit_above m 52 n) in Hbit by lia.
  rewrite (testbit_above (Z.b2z s) 1 (n - 63)) in Hbit
    by (destruct s; simpl; lia).
  discriminate.
Qed.

Lemma PutUint64_byte v (i : nat) :
  (i < 8)%nat ->
  PutUint64 v !! i = Some (Z.land (Z.shiftr v (8 * Z.of_nat i)) 255).
Proof.
  intros Hi. unfold PutUint64, byte.
  do 8 (destruct i as [|i]; [simpl; rewrite ?Z.shiftr_0_r; reflexivity|]).
  lia.
Qed.

(** *** The record (C3) *)

Lemma encode_length c lat lon : length (encode c lat lon) = 17%nat.
Proof. reflexivity. Qed.

Lemma byte_id c : 0 <= c <= 255 -> byte c = c.
Proof.
  intros Hc. unfold byte. change 255 with (Z.ones 8).
  rewrite Z.land_ones by lia. apply Z.mod_small. lia.
Qed.

Lemma encode_cons c lat lon :
  encode c lat lon
  = byte c :: (PutUint64 (Float64bits lat) ++ PutUint64 (Float64bits lon)).
Proof. reflexivity. Qed.

(** C3.  For a category index [c] in [0, 255] and two doubles, [encode]
    gives exactly 17 bytes: byte 0 is [c], bytes 1-8 are the bits of the
    latitude and bytes 9-16 those of the longitude, least significant byte
    first; and decoding these bytes gives back [c] and both doubles, bit
    for bit. *)
Theorem encode_layout_roundtrip (c : Z) (lat lon : float64) :
  0 <= c <= 255 -> float64_ok lat -> float64_ok lon ->
  length (encode c lat lon) = 17%nat /\
  encode c lat lon !! 0%nat = Some c /\
  (forall i : nat, (i < 8)%nat ->
     encode c lat lon !! (1 + i)%nat
     = Some (Z.land (Z.shiftr (Float64bits lat) (8 * Z.of_nat i)) 255)) /\
  (forall i : nat, (i < 8)%nat ->
     encode c lat lon !! (9 + i)%nat
     = Some (Z.land (Z.shiftr (Float64bits lon) (8 * Z.of_nat i)) 255)) /\
  decode (encode c lat lon) = Some (c, lat, lon).
Proof.
  intros Hc Hlat Hlon. split; [reflexivity|].
  split; [unfold encode; simpl; by rewrite byte_id|].
  split; [|split].
  - intros i Hi. rewrite encode_cons. change (1 + i)%nat with (S i).
    change ((?x :: ?l) !! S ?k) with (l !! k). rewrite lookup_app_l by (simpl; lia).
    by apply PutUint64_byte.
  - intros i Hi. rewrite encode_cons. change (9 + i)%nat with (S (8 + i)).
    change ((?x :: ?l) !! S ?k) with (l !! k). rewrite lookup_app_r by (simpl; lia).
    replace (8 + i - length (PutUint64 (Float64bits lat)))%nat
      with i by (simpl; lia).
    by apply PutUint64_byte.
  - unfold decode. rewrite encode_length.
    destruct (decide (17 = 17)%nat) as [_|Hne]; [|done].
    rewrite encode_cons.
    rewrite take_app_length' by reflexivity.
    rewrite drop_app_length' by reflexivity.
    rewrite firstn_all2 by (simpl; lia).
    rewrite !Uint64_PutUint64 by (by apply Float64bits_range).
    simpl. rewrite !Float64frombits_Float64bits by done.
    by rewrite byte_id.
Qed.

Lemma encode_layout_roundtrip_witness :
  decode (encode 37 f64_51_5 f64_m0_1) = Some (37, f64_51_5, f64_m0_1).
Proof.
  apply (encode_layout_roundtrip 37 f64_51_5 f64_m0_1).
  - lia.
  - unfold float64_ok; simpl; lia.
  - unfold float64_ok; simpl; lia.
Defined.

Example encode_ubuntu_london :
  encode 37 f64_51_5 f64_m0_1
  = [37; 0; 0; 0; 0; 0; 192; 73; 64; 154; 153; 153; 153; 153; 153; 185; 191].
Proof. reflexivity. Qed.

(** *** The expression and the vocabulary *)

(** More fuel than the length of the text changes nothing: [FindAllString]
    does not stop short. *)
Lemma lazy_dots_slash_shorter s m rest :
  lazy_dots_slash s = Some (m, rest) ->
  (String.length rest < String.length s)%nat.
Proof.
  revert m rest. induction s as [|c r IH]; intros m rest; simpl; [done|].
  destruct (Ascii.eqb c slash); [intros [= <- <-]; lia|].
  destruct (Ascii.eqb c newline); [done|].
  destruct (lazy_dots_slash r) as [[m' rest']|] eqn:Hr; [|done].
  intros [= <- <-]. specialize (IH _ _ eq_refl). lia.
Qed.

Lemma match_here_shorter s m rest :
  match_here s = Some (m, rest) ->
  (String.length rest < String.length s)%nat.
Proof.
  destruct s as [|c r]; simpl; [done|].
  destruct (Ascii.eqb c slash); [|done].
  destruct (lazy_dots_slash r) as [[m' rest']|] eqn:Hr; [|done].
  intros [= <- <-]. apply lazy_dots_slash_shorter in Hr. lia.
Qed.

Lemma FindAll_fuel n s :
  (String.length s <= n)%nat -> FindAll n s = FindAll (String.length s) s.
Proof.
  revert s. induction n as [n IH] using lt_wf_ind. intros s Hn.
  destruct s as [|c r]; [by destruct n|].
  destruct n as [|n]; [simpl in Hn; lia|].
  cbn [FindAll String.length].
  destruct (match_here (String c r)) as [[m rest]|] eqn:Hm.
  - pose proof (match_here_shorter _ _ _ Hm) as Hlt. simpl in Hlt, Hn.
    rewrite (IH n) by lia. rewrite (IH (String.length r)) by lia. done.
  - simpl in Hn. rewrite (IH n) by lia. done.
Qed.

(** A match starts and ends with ['/'] and has neither a ['/'] nor a
    newline in between. *)
Lemma lazy_dots_slash_shape s m rest :
  lazy_dots_slash s = Some (m, rest) ->
  exists body, m = (body ++ String slash EmptyString)%string /\
               plain body = true /\ s = (m ++ rest)%string.
Proof.
  revert m rest. induction s as [|c r IH]; intros m rest; simpl; [done|].
  destruct (Ascii.eqb_spec c slash) as [->|Hs].
  { intros [= <- <-]. by exists EmptyString. }
  destruct (Ascii.eqb_spec c newline) as [->|Hn]; [done|].
  destruct (lazy_dots_slash r) as [[m' rest']|] eqn:Hr; [|done].
  intros [= <- <-]. destruct (IH _ _ eq_refl) as (body & -> & Hp & ->).
  exists (String c body). simpl. split; [done|]. split; [|done].
  rewrite Hp. destruct (Ascii.eqb_spec c slash); [done|].
  by destruct (Ascii.eqb_spec c newline).
Qed.

Lemma fill_distMap_other k l : forall i m,
  k ∉ l -> fill_distMap i l m !! k = m !! k.
Proof.
  induction l as [|d rest IH]; intros i m Hk; simpl; [done|].
  apply not_elem_of_cons in Hk as [Hne Hk].
  rewrite IH by done. by rewrite lookup_insert_ne.
Qed.

Lemma distMap_unknown name : name ∉ distList -> map_index distMap name = 0.
Proof.
  intros Hn. unfold map_index, distMap.
  rewrite fill_distMap_other by done. by rewrite lookup_empty.
Qed.

Lemma fill_distMap_known l : forall i m k,
  k ∈ l -> exists j, fill_distMap i l m !! k = Some j /\ i <= j < i + Z.of_nat (length l).
Proof.
  induction l as [|d rest IH]; intros i m k Hk; [by apply elem_of_nil in Hk|].
  simpl. destruct (decide (k ∈ rest)) as [Hin|Hnot].
  - destruct (IH (i + 1) (<[d:=i]> m) k Hin) as (j & Hj & Hr).
    exists j. split; [done|]. lia.
  - apply elem_of_cons in Hk as [->|Hk]; [|done].
    exists i. rewrite fill_distMap_other by done.
    rewrite lookup_insert_eq. split; [done|]. lia.
Qed.

(** Every index of the vocabulary fits the one byte of the record. *)
Lemma distMap_byte name : 0 <= map_index distMap name <= 255.
Proof.
  unfold map_index, distMap. destruct (decide (name ∈ distList)) as [Hin|Hnot].
  - destruct (fill_distMap_known distList 0 ∅ name Hin) as (j & -> & Hj).
    simpl in *. lia.
  - rewrite fill_distMap_other by done. rewrite lookup_empty. simpl. lia.
Qed.

Example distMap_ubuntu : map_index distMap "ubuntu" = 37.
Proof. reflexivity. Qed.

Example one_segment :
  FindAllString "203.0.113.5 - GET /debian HTTP/1.1" = ["/debian HTTP/"%string].
Proof. reflexivity. Qed.

Example three_slashes :
  FindAllString "203.0.113.5 - GET /pub/ubuntu/focal HTTP/1.1"
  = ["/pub/"; "/focal HTTP/"]%string.
Proof. reflexivity. Qed.

(** *** The loop body *)

Lemma fileIn_body_Send E prevIp line m p :
  fileIn_body E prevIp line = (Send m, p) ->
  exists lat long,
    City E (ParseIP E (TrimSpace E (getIp line))) = Some (lat, long) /\
    (2 <= length (FindAllString line))%nat /\
    m = encode (map_index distMap (category_name line)) lat long /\
    p = getIp line /\ getIp line ≠ prevIp /\ getIp line ≠ EmptyString.
Proof.
  unfold fileIn_body.
  destruct (String.eqb_spec (getIp line) prevIp) as [|Hp]; [done|].
  destruct (String.eqb_spec (getIp line) EmptyString) as [|He]; [done|].
  destruct (City E _) as [[lat long]|] eqn:HC; [|done].
  destruct (Nat.ltb_spec (length (FindAllString line)) 2); [done|].
  intros [= <- <-]. by exists lat, long.
Qed.

Lemma fileIn_not_Send E prevIp line rest s :
  (forall m p, fileIn_body E prevIp line ≠ (Send m, p)) ->
  fileIn E prevIp (line :: rest) s
  = match fileIn_prev E prevIp [line] with
    | Some p => fileIn E p rest s
    | None => s
    end.
Proof.
  intros Hno. simpl.
  destruct (fileIn_body E prevIp line) as [[| | | |m] p] eqn:Hb; try done.
  by destruct (Hno m p).
Qed.

(** C6.  A line with fewer than two matches of the expression is skipped:
    its iteration sends nothing and the loop leaves the hub as it was on it.
    Whenever an iteration does send a record, the line has at least two
    matches and the category is the vocabulary index of the name taken from
    the second one.  And a line with two matches or more, [first], [seg] and
    maybe more, whose address is new and not empty and is resolved to
    [(lat, long)], is sent on, with the vocabulary index of the name taken
    from [seg], the second match, as its category. *)
Theorem second_segment_category (E : extern) (prevIp line : string) :
  ((length (FindAllString line) < 2)%nat ->
   (forall m p, fileIn_body E prevIp line ≠ (Send m, p)) /\
   forall s, fileIn E prevIp [line] s = s) /\
  (forall m p, fileIn_body E prevIp line = (Send m, p) ->
   exists first seg more lat long,
     FindAllString line = first :: seg :: more /\
     m = encode (map_index distMap (distro_name seg)) lat long) /\
  (forall first seg more lat long,
     getIp line ≠ prevIp -> getIp line ≠ EmptyString ->
     City E (ParseIP E (TrimSpace E (getIp line))) = Some (lat, long) ->
     FindAllString line = first :: seg :: more ->
     fileIn_body E prevIp line
     = (Send (encode (map_index distMap (distro_name seg)) lat long),
        getIp line)).
Proof.
  split; [|split].
  - intros Hlt.
    assert (Hno : forall m p, fileIn_body E prevIp line ≠ (Send m, p)).
    { intros m p Hb. apply fileIn_body_Send in Hb as (? & ? & _ & ? & _). lia. }
    split; [exact Hno|]. intros s. rewrite fileIn_not_Send by exact Hno.
    simpl. by destruct (fileIn_body E prevIp line) as [[| | | |m] p].
  - intros m p Hb.
    apply fileIn_body_Send in Hb as (lat & long & _ & Hlen & -> & _).
    unfold category_name.
    destruct (FindAllString line) as [|first [|seg more]]; simpl in Hlen; try lia.
    by exists first, seg, more, lat, long.
  - intros first seg more lat long Hp He HC Hm. unfold fileIn_body.
    destruct (String.eqb_spec (getIp line) prevIp); [done|].
    destruct (String.eqb_spec (getIp line) EmptyString); [done|].
    rewrite HC, Hm. done.
Qed.

Lemma second_segment_category_witness :
  fileIn_body stub "" "203.0.113.5 - GET /debian HTTP/1.1"
    ≠ (Send (encode 11 f64_51_5 f64_m0_1), "203.0.113.5 "%string) /\
  (exists first seg more lat long,
    FindAllString "203.0.113.5 - GET /pub/ubuntu/focal/main HTTP/1.1"
      = first :: seg :: more /\
    encode 0 f64_51_5 f64_m0_1
      = encode (map_index distMap (distro_name seg)) lat long) /\
  fileIn_body stub "" good_line
  = (Send (encode (map_index distMap (distro_name "/ubuntu/")) f64_51_5 f64_m0_1),
     getIp good_line).
Proof.
  split; [|split].
  - apply (proj1 (second_segment_category stub ""
                    "203.0.113.5 - GET /debian HTTP/1.1")).
    vm_compute. lia.
  - apply (proj1 (proj2 (second_segment_category stub ""
                    "203.0.113.5 - GET /pub/ubuntu/focal/main HTTP/1.1"))
             (encode 0 f64_51_5 f64_m0_1) "203.0.113.5 "%string).
    reflexivity.
  - apply (proj2 (proj2 (second_segment_category stub "" good_line))
             "/pub/"%string "/ubuntu/"%string [] f64_51_5 f64_m0_1).
    + vm_compute. discriminate.
    + vm_compute. discriminate.
    + reflexivity.
    + reflexivity.
Defined.

(** C7.  When an iteration sends a record and the name taken from the
    second match (spaces and ['/'] removed) is not in the vocabulary, byte 0
    of the record is 0, which is also the index of the first entry of the
    vocabulary, ["alpine"]. *)
Theorem unknown_category_is_zero (E : extern) (prevIp line p : string) (m : msg) :
  fileIn_body E prevIp line = (Send m, p) ->
  category_name line ∉ distList ->
  m !! 0%nat = Some 0 /\
  distList !! 0%nat = Some "alpine"%string /\
  distMap !! "alpine"%string = Some 0.
Proof.
  intros Hb Hn. apply fileIn_body_Send in Hb as (lat & long & _ & _ & -> & _).
  rewrite distMap_unknown by done. done.
Qed.

Lemma unknown_category_is_zero_witness :
  encode 0 f64_51_5 f64_m0_1 !! 0%nat = Some 0 /\
  distList !! 0%nat = Some "alpine"%string /\
  distMap !! "alpine"%string = Some 0.
Proof.
  apply (unknown_category_is_zero stub ""
           "203.0.113.5 - GET /pub/ubuntu/focal/main HTTP/1.1"
           "203.0.113.5 "%string).
  - reflexivity.
  - vm_compute. intros Hin.
    repeat (apply elem_of_cons in Hin as [Hin|Hin]; [discriminate Hin|]).
    by apply elem_of_nil in Hin.
Defined.

(** *** Consecutive lines of one address (C8) *)

Lemma fileIn_body_prev E p line o p' :
  fileIn_body E p line = (o, p') ->
  (classifies o = true /\ p' = getIp line) \/
  (classifies o = false /\ p' = p /\ (getIp line = p \/ getIp line = EmptyString)).
Proof.
  unfold fileIn_body.
  destruct (String.eqb_spec (getIp line) p) as [Hp|Hp].
  { intros [= <- <-]. right. auto. }
  destruct (String.eqb_spec (getIp line) EmptyString) as [He|He].
  { intros [= <- <-]. right. auto. }
  destruct (City E _) as [[lat long]|]; [|intros [= <- <-]; by left].
  destruct (length (FindAllString line) <? 2)%nat; intros [= <- <-]; by left.
Qed.

Lemma fileIn_trace_quiet E a run : forall p,
  (forall l, l ∈ run -> getIp l = a) ->
  a = p \/ a = EmptyString ->
  Forall (fun o => classifies o = false) (fileIn_trace E p run).
Proof.
  induction run as [|l rest IH]; intros p Hrun Ha; simpl; [constructor|].
  assert (Hl : getIp l = a) by (apply Hrun; left).
  destruct (fileIn_body E p l) as [o p'] eqn:Hb.
  destruct (fileIn_body_prev _ _ _ _ _ Hb) as [[Hc Hp']|(Hc & -> & _)].
  - exfalso. revert Hb Hc. unfold fileIn_body. rewrite Hl.
    destruct Ha as [->| ->].
    + rewrite String.eqb_refl. by intros [= <- <-].
    + destruct (String.eqb EmptyString p); by intros [= <- <-].
  - assert (Hrest : Forall (fun o => classifies o = false) (fileIn_trace E p rest)).
    { apply IH; [|done]. intros l' Hl'. apply Hrun. by right. }
    destruct o; try done; by constructor.
Qed.

Lemma fileIn_trace_run E a run p :
  (forall l, l ∈ run -> getIp l = a) ->
  match fileIn_trace E p run with
  | [] => True
  | _ :: t => Forall (fun o => classifies o = false) t
  end.
Proof.
  destruct run as [|l rest]; intros Hrun; simpl; [done|].
  assert (Hl : getIp l = a) by (apply Hrun; left).
  destruct (fileIn_body E p l) as [o p'] eqn:Hb.
  assert (Hrest : Forall (fun o => classifies o = false) (fileIn_trace E p' rest)).
  { apply (fileIn_trace_quiet E a); [intros l' Hl'; apply Hrun; by right|].
    destruct (fileIn_body_prev _ _ _ _ _ Hb) as [[_ ->]|(_ & -> & H)].
    - by left.
    - rewrite Hl in H. done. }
  destruct o; first [done | constructor].
Qed.

Lemma fileIn_trace_app E l1 l2 : forall p,
  fileIn_trace E p (l1 ++ l2)
  = fileIn_trace E p l1 ++
    match fileIn_prev E p l1 with
    | Some q => fileIn_trace E q l2
    | None => []
    end.
Proof.
  induction l1 as [|l rest IH]; intros p; simpl; [done|].
  destruct (fileIn_body E p l) as [o p'].
  destruct o; simpl; by rewrite ?IH.
Qed.

Lemma fileIn_trace_length E l : forall p,
  (length (fileIn_trace E p l) <= length l)%nat /\
  (forall q, fileIn_prev E p l = Some q ->
             length (fileIn_trace E p l) = length l).
Proof.
  induction l as [|x rest IH]; intros p; simpl; [done|].
  destruct (fileIn_body E p x) as [o p'].
  destruct (IH p') as [Hle Heq].
  destruct o; simpl; (split; [lia|]); try done;
    intros q Hq; by rewrite (Heq q).
Qed.

(** The iterations on the lines of [run], cut out of the trace of the whole
    feed. *)
Lemma fileIn_trace_window E pre run post p :
  take (length run) (drop (length pre) (fileIn_trace E p (pre ++ run ++ post)))
  = match fileIn_prev E p pre with
    | Some q => fileIn_trace E q run
    | None => []
    end.
Proof.
  rewrite fileIn_trace_app.
  destruct (fileIn_trace_length E pre p) as [Hle Heq].
  destruct (fileIn_prev E p pre) as [q|].
  - rewrite drop_app_length' by (symmetry; by apply (Heq q)).
    rewrite fileIn_trace_app.
    destruct (fileIn_trace_length E run q) as [Hle' Heq'].
    destruct (fileIn_prev E q run) as [q'|].
    + rewrite take_app_length' by (symmetry; by apply (Heq' q')). done.
    + rewrite app_nil_r. by rewrite firstn_all2.
  - rewrite app_nil_r. rewrite drop_ge by done. by rewrite take_nil.
Qed.

(** C8.  In the trace of the loop on a feed [pre ++ run ++ post] whose lines
    in [run] all carry the same address, at most one iteration on a line of
    [run] calls the resolver and matches the expression, and no iteration
    on a line of [run] after its first does: those lines are skipped at the
    comparison with [prevIp] (or at the test for the empty address). *)
Theorem one_attempt_per_run (E : extern) (pre run post : list string) (a : string) :
  (forall l, l ∈ run -> getIp l = a) ->
  let t := fileIn_trace E EmptyString (pre ++ run ++ post) in
  (length (List.filter classifies (take (length run) (drop (length pre) t))) <= 1)%nat /\
  (forall (i : nat) o,
     (length pre < i < length pre + length run)%nat ->
     t !! i = Some o -> classifies o = false).
Proof.
  intros Hrun t.
  pose proof (fileIn_trace_window E pre run post EmptyString) as Hw.
  fold t in Hw.
  assert (Htail : match take (length run) (drop (length pre) t) with
                  | [] => True
                  | _ :: w => Forall (fun o => classifies o = false) w
                  end).
  { rewrite Hw. destruct (fileIn_prev E EmptyString pre) as [q|]; [|done].
    by apply (fileIn_trace_run E a). }
  split.
  - destruct (take (length run) (drop (length pre) t)) as [|o w]; [simpl; lia|].
    assert (Hnil : List.filter classifies w = []).
    { clear -Htail. induction Htail as [|x w Hx _ IH]; simpl; [done|].
      by rewrite Hx. }
    simpl. rewrite Hnil. destruct (classifies o); simpl; lia.
  - intros i o Hi Hlook.
    assert (Hin : take (length run) (drop (length pre) t)
                    !! (i - length pre)%nat = Some o).
    { rewrite lookup_take_lt by lia. rewrite lookup_drop.
      by replace (length pre + (i - length pre))%nat with i by lia. }
    destruct (take (length run) (drop (length pre) t)) as [|o0 w]; [done|].
    destruct (i - length pre)%nat as [|k] eqn:Hk; [lia|].
    simpl in Hin. rewrite Forall_lookup in Htail. by apply (Htail k).
Qed.

Lemma one_attempt_per_run_witness :
  let t := fileIn_trace stub EmptyString (feed_pre ++ feed_run ++ feed_post) in
  (length (List.filter classifies (take 3 (drop 1 t))) <= 1)%nat /\
  (forall (i : nat) o, (1 < i < 1 + 3)%nat -> t !! i = Some o -> classifies o = false).
Proof.
  apply (one_attempt_per_run stub feed_pre feed_run feed_post "203.0.113.5 "%string).
  intros l Hl. unfold feed_run in Hl.
  repeat (apply elem_of_cons in Hl as [->|Hl]; [reflexivity|]).
  by apply elem_of_nil in Hl.
Defined.

Example burst_trace :
  List.map classifies
    (fileIn_trace stub EmptyString (feed_pre ++ feed_run ++ feed_post))
  = [true; true; false; false; true].
Proof. reflexivity. Qed.

(** *** A resolver error ends the loop (C5) *)

Lemma fileIn_return E prevIp line rest s :
  getIp line ≠ prevIp -> getIp line ≠ EmptyString ->
  City E (ParseIP E (TrimSpace E (getIp line))) = None ->
  fileIn_trace E prevIp (line :: rest) = [ReturnErr] /\
  fileIn E prevIp (line :: rest) s = s.
Proof.
  intros Hp He HC.
  assert (Hb : fileIn_body E prevIp line = (ReturnErr, getIp line)).
  { unfold fileIn_body.
    destruct (String.eqb_spec (getIp line) prevIp); [done|].
    destruct (String.eqb_spec (getIp line) EmptyString); [done|].
    by rewrite HC. }
  simpl. by rewrite Hb.
Qed.

(** C5, on the code.  The address of [bad_line] does not parse, the
    database answers the nil address with an error, and the loop returns:
    [good_line], which alone gives a record for the subscriber, is never
    read. *)
Theorem resolver_error_ends_ingestion :
  fileIn_body stub EmptyString bad_line = (ReturnErr, "not.an.ip "%string) /\
  fileIn_trace stub EmptyString [bad_line; good_line] = [ReturnErr] /\
  sent (fileIn_trace stub EmptyString [good_line])
    = [encode 37 f64_51_5 f64_m0_1] /\
  (forall s, fileIn stub EmptyString [bad_line; good_line] s = s) /\
  buffer 0 (fileIn stub EmptyString [bad_line; good_line]
              (registerHandler "ab" init).1) = [] /\
  buffer 0 (fileIn stub EmptyString [good_line] (registerHandler "ab" init).1)
    = [encode 37 f64_51_5 f64_m0_1].
Proof.
  split; [reflexivity|]. split; [reflexivity|]. split; [reflexivity|].
  split; [|split; [|vm_compute; reflexivity]].
  - intros s. by apply (fileIn_return stub).
  - by rewrite (proj2 (fileIn_return stub EmptyString bad_line [good_line] _
                         ltac:(done) ltac:(done) eq_refl)).
Qed.

(** *** The fan-out (C1) *)

Lemma offer_length m r h : length (offer m r h) = length h.
Proof.
  unfold offer. destruct (h !! r) as [c|]; [|done].
  destruct (try_send m c); [|done]. by rewrite length_insert.
Qed.

Lemma offer_lookup_ne m r r' h : r ≠ r' -> offer m r h !! r' = h !! r'.
Proof.
  intros Hne. unfold offer. destruct (h !! r) as [c|]; [|done].
  destruct (try_send m c); [|done]. by rewrite list_lookup_insert_ne.
Qed.

Lemma offer_lookup_eq m r h c :
  h !! r = Some c -> offer m r h !! r = Some (offered m c).
Proof.
  intros Hc. unfold offer, offered, try_send. rewrite Hc.
  destruct (decide (length (ch_buf c) < ch_cap c)%nat); [|done].
  rewrite list_lookup_insert_eq; [done|]. by apply lookup_lt_Some in Hc.
Qed.

Lemma fanout_length m order : forall h,
  length (foldl (fun h (e : string * nat) => offer m e.2 h) h order) = length h.
Proof.
  induction order as [|e rest IH]; intros h; simpl; [done|].
  by rewrite IH, offer_length.
Qed.

Lemma fanout_lookup_other m r order : forall h,
  r ∉ order.*2 ->
  foldl (fun h (e : string * nat) => offer m e.2 h) h order !! r = h !! r.
Proof.
  induction order as [|e rest IH]; intros h Hr; simpl; [done|].
  rewrite fmap_cons in Hr. apply not_elem_of_cons in Hr as [Hne Hr].
  rewrite IH by done. by rewrite offer_lookup_ne.
Qed.

Lemma fanout_lookup_once m r c order : forall h,
  NoDup order.*2 -> r ∈ order.*2 -> h !! r = Some c ->
  foldl (fun h (e : string * nat) => offer m e.2 h) h order !! r
  = Some (offered m c).
Proof.
  induction order as [|e rest IH]; intros h Hnd Hr Hc; simpl.
  { by apply elem_of_nil in Hr. }
  rewrite fmap_cons in Hnd, Hr. apply NoDup_cons in Hnd as [Hnot Hnd].
  destruct (decide (e.2 = r)) as [Heq|Hne].
  - subst r. rewrite fanout_lookup_other by done. by apply offer_lookup_eq.
  - apply elem_of_cons in Hr as [Hr|Hr]; [done|].
    apply IH; [done..|]. by rewrite offer_lookup_ne.
Qed.

(** Under [wf] no channel is visited twice. *)
Lemma wf_NoDup_channels s : wf s -> NoDup (map_to_list (clients s)).*2.
Proof.
  intros Hwf. apply NoDup_alt. intros i j r Hi Hj.
  apply list_lookup_fmap_Some in Hi as ([k1 r1] & -> & Hi).
  apply list_lookup_fmap_Some in Hj as ([k2 r2] & Heq & Hj).
  simpl in *. subst r2.
  assert (H1 : clients s !! k1 = Some r1).
  { apply elem_of_map_to_list. by apply list_elem_of_lookup_2 in Hi. }
  assert (H2 : clients s !! k2 = Some r1).
  { apply elem_of_map_to_list. by apply list_elem_of_lookup_2 in Hj. }
  assert (k1 = k2) as -> by (by apply (wf_inj s Hwf k1 k2 r1)).
  by apply (proj1 (NoDup_alt _) (NoDup_map_to_list (clients s)) i j (k2, r1)).
Qed.

Lemma registered_in_order s (order : list (string * nat)) r :
  order ≡ₚ map_to_list (clients s) ->
  r ∈ order.*2 <-> exists id, clients s !! id = Some r.
Proof.
  intros Hp. rewrite Hp. rewrite list_elem_of_fmap. split.
  - intros ([id r'] & -> & Hin). exists id. by apply elem_of_map_to_list.
  - intros [id Hid]. exists (id, r). split; [done|].
    by apply elem_of_map_to_list.
Qed.

(** *** The steps keep the hub well formed *)

Lemma wf_init : wf init.
Proof. split; intros *; simpl; by rewrite ?lookup_empty. Qed.

Lemma wf_registerHandler id s : wf s -> wf (registerHandler id s).1.
Proof.
  intros [Hb Hi Hc]. split; simpl.
  - intros id' r. rewrite length_app. simpl.
    destruct (decide (id = id')) as [<-|Hne].
    + rewrite lookup_insert_eq. intros [= <-]. lia.
    + rewrite lookup_insert_ne by done. intros H%Hb. lia.
  - intros id1 id2 r.
    destruct (decide (id = id1)) as [<-|H1], (decide (id = id2)) as [<-|H2];
      rewrite ?lookup_insert_eq, ?lookup_insert_ne by done; try done.
    + intros [= <-] H%Hb. lia.
    + intros H%Hb [= <-]. lia.
    + apply Hi.
  - intros c h r Hh Hr. rewrite length_app. simpl.
    specialize (Hc c h r Hh Hr). lia.
Qed.

Lemma wf_socketHandler id ok s : wf s -> wf (socketHandler id ok s).1.
Proof.
  intros Hwf. unfold socketHandler.
  destruct (String.eqb id EmptyString); [done|]. destruct ok; [|done].
  destruct Hwf as [Hb Hi Hc]. split; simpl; [done..|].
  intros c h r Hh Hr. apply lookup_app_Some in Hh as [Hh|[_ Hh]].
  - by apply (Hc c h r).
  - destruct (c - length (conns s))%nat; [|done].
    simpl in Hh. injection Hh as <-. simpl in Hr. by apply (Hb id r).
Qed.

Lemma deliver_Some c ok s s' :
  deliver c ok s = Some s' ->
  exists h r ch val rest,
    conns s !! c = Some h /\ h_running h = true /\ h_ch h = Some r /\
    heap s !! r = Some ch /\ ch_buf ch = val :: rest /\
    heap s' = <[r := Chan (ch_cap ch) rest]> (heap s) /\
    ((ok = true /\ clients s' = clients s /\
      conns s' = <[c := Handler (h_id h) (h_ch h) (h_peer h) (h_closed h) true
                          (h_recv h ++ [val]) (h_written h ++ [val])]> (conns s))
     \/
     (ok = false /\ clients s' = delete (h_id h) (clients s) /\
      conns s' = <[c := Handler (h_id h) (h_ch h) (h_peer h) true false
                          (h_recv h ++ [val]) (h_written h)]> (conns s))).
Proof.
  unfold deliver. destruct (conns s !! c) as [h|] eqn:Hh; [|done]. simpl.
  destruct (h_running h) eqn:Hrun; [|done].
  destruct (h_ch h) as [r|] eqn:Hr; [|done]. simpl.
  destruct (heap s !! r) as [ch|] eqn:Hch; [|done]. simpl.
  unfold try_recv. destruct (ch_buf ch) as [|val rest] eqn:Hbuf; [done|]. simpl.
  destruct ok eqn:Hok; intros [= <-];
    exists h, r, ch, val, rest; simpl; rewrite ?Hr; auto 10.
Qed.

Lemma wf_deliver c ok s s' : wf s -> deliver c ok s = Some s' -> wf s'.
Proof.
  intros [Hb Hi Hc] Hd.
  apply deliver_Some in Hd
    as (h & r & ch & val & rest & Hh & _ & Hr & _ & _ & Hheap & Hcase).
  assert (Hlen : length (heap s') = length (heap s))
    by (by rewrite Hheap, length_insert).
  assert (Hsub : forall id x, clients s' !! id = Some x -> clients s !! id = Some x).
  { intros id x. destruct Hcase as [(_ & -> & _)|(_ & -> & _)]; [done|].
    intros Hx. by apply lookup_delete_Some in Hx as [_ Hx]. }
  split.
  - intros id x Hx%Hsub. rewrite Hlen. by apply (Hb id).
  - intros id1 id2 x H1%Hsub H2%Hsub. by apply (Hi id1 id2 x).
  - intros c' h' x Hh' Hx. rewrite Hlen.
    assert (exists h0, conns s !! c' = Some h0 /\ h_ch h0 = Some x) as (h0 & ? & ?).
    { destruct (decide (c = c')) as [<-|Hne].
      - exists h. split; [done|].
        destruct Hcase as [(_ & _ & Hcs)|(_ & _ & Hcs)]; rewrite Hcs in Hh';
          rewrite list_lookup_insert_eq in Hh' by (by apply lookup_lt_Some in Hh);
          injection Hh' as <-; done.
      - exists h'. split; [|done].
        destruct Hcase as [(_ & _ & Hcs)|(_ & _ & Hcs)]; rewrite Hcs in Hh';
          by rewrite list_lookup_insert_ne in Hh'. }
    by apply (Hc c' h0).
Qed.

Lemma wf_peer_close c s s' : wf s -> peer_close c s = Some s' -> wf s'.
Proof.
  intros [Hb Hi Hc]. unfold peer_close.
  destruct (conns s !! c) as [h|] eqn:Hh; [|done]. simpl. intros [= <-].
  split; simpl; [done..|]. intros c' h' x Hh' Hx.
  destruct (decide (c = c')) as [<-|Hne].
  - rewrite list_lookup_insert_eq in Hh' by (by apply lookup_lt_Some in Hh).
    injection Hh' as <-. by apply (Hc c h).
  - rewrite list_lookup_insert_ne in Hh' by done. by apply (Hc c' h').
Qed.

Lemma wf_publish_in order m s : wf s -> wf (publish_in order m s).
Proof.
  intros [Hb Hi Hc]. split; simpl; rewrite ?fanout_length; done.
Qed.

Lemma wf_step a s s' : wf s -> step a s = Some s' -> wf s'.
Proof.
  intros Hwf. destruct a as [id|id ok|c ok|c|m]; simpl.
  - intros [= <-]. by apply wf_registerHandler.
  - intros [= <-]. by apply wf_socketHandler.
  - by apply wf_deliver.
  - by apply wf_peer_close.
  - intros [= <-]. by apply wf_publish_in.
Qed.

Lemma wf_run acts : forall s s', wf s -> run acts s = Some s' -> wf s'.
Proof.
  induction acts as [|a rest IH]; intros s s' Hwf; simpl.
  - by intros [= <-].
  - destruct (step a s) as [s1|] eqn:Hs; [|done]. simpl.
    apply IH. by apply (wf_step a s).
Qed.

(** Every state the process reaches from [init] is well formed. *)
Lemma wf_after acts : wf (after acts).
Proof.
  unfold after. destruct (run acts init) as [s|] eqn:Hr; simpl.
  - apply (wf_run acts init s wf_init Hr).
  - apply wf_init.
Qed.

Lemma fanout_pointwise m s (order : list (string * nat)) r :
  wf s -> order ≡ₚ map_to_list (clients s) ->
  foldl (fun h (e : string * nat) => offer m e.2 h) (heap s) order !! r
  = if decide (r ∈ (map_to_list (clients s)).*2)
    then offered m <$> heap s !! r
    else heap s !! r.
Proof.
  intros Hwf Hp.
  assert (Hnd : NoDup order.*2).
  { rewrite Hp. by apply wf_NoDup_channels. }
  destruct (decide (r ∈ (map_to_list (clients s)).*2)) as [Hreg|Hnot].
  - rewrite <- Hp in Hreg.
    destruct (heap s !! r) as [c|] eqn:Hc; simpl.
    + by apply fanout_lookup_once.
    + apply lookup_ge_None. rewrite fanout_length. by apply lookup_ge_None.
  - apply fanout_lookup_other. by rewrite Hp.
Qed.

(** C1.  The fan-out of lines 99-109, in whatever order [range] visits the
    registry, is a total function of the hub: it always ends and has no
    error to report.  A registered channel that is full keeps its buffer as
    it was (the record is dropped, once and for all); every registered
    channel that is not full gets the record once, at the end of its
    buffer; nothing else changes, and the order of the visit does not
    matter. *)
Theorem publish_drops_for_full_only
  (s : server) (m : msg) (order : list (string * nat)) :
  wf s -> order ≡ₚ map_to_list (clients s) ->
  let s' := publish_in order m s in
  s' = publish m s /\
  clients s' = clients s /\ conns s' = conns s /\
  (forall id r c, clients s !! id = Some r -> heap s !! r = Some c ->
     (length (ch_buf c) >= ch_cap c)%nat -> heap s' !! r = Some c) /\
  (forall id r c, clients s !! id = Some r -> heap s !! r = Some c ->
     (length (ch_buf c) < ch_cap c)%nat ->
     heap s' !! r = Some (Chan (ch_cap c) (ch_buf c ++ [m]))) /\
  (forall r, (forall id, clients s !! id ≠ Some r) -> heap s' !! r = heap s !! r).
Proof.
  intros Hwf Hp s'.
  assert (Hreg : forall r, r ∈ (map_to_list (clients s)).*2
                           <-> exists id, clients s !! id = Some r).
  { intros r. by apply registered_in_order. }
  split; [|split; [done|split; [done|]]].
  - unfold s', publish, publish_in. f_equal. apply list_eq. intros r.
    rewrite !fanout_pointwise by done. done.
  - split; [|split].
    + intros id r c Hid Hc Hfull. unfold s', publish_in. simpl.
      rewrite fanout_pointwise by done.
      destruct (decide _) as [_|Hnot];
        [|destruct Hnot; apply Hreg; by exists id].
      rewrite Hc. simpl. unfold offered.
      destruct (decide (length (ch_buf c) < ch_cap c)%nat); [lia|done].
    + intros id r c Hid Hc Hroom. unfold s', publish_in. simpl.
      rewrite fanout_pointwise by done.
      destruct (decide _) as [_|Hnot];
        [|destruct Hnot; apply Hreg; by exists id].
      rewrite Hc. simpl. unfold offered.
      destruct (decide (length (ch_buf c) < ch_cap c)%nat); [done|lia].
    + intros r Hr. unfold s', publish_in. simpl.
      rewrite fanout_pointwise by done.
      destruct (decide _) as [[id Hid]%Hreg|_]; [by destruct (Hr id)|done].
Qed.

Lemma publish_drops_for_full_only_witness :
  let s := after full_and_empty in
  length (buffer 0 s) = 10%nat /\
  heap (publish rec0 s) !! 0%nat = heap s !! 0%nat /\
  heap (publish rec0 s) !! 1%nat = Some (Chan 10 [rec0]).
Proof.
  intros s.
  destruct (publish_drops_for_full_only s rec0 (map_to_list (clients s))
              (wf_after full_and_empty) (reflexivity _))
    as (_ & _ & _ & Hfull & Hroom & _).
  split; [vm_compute; reflexivity|]. split.
  - change (publish rec0 s) with (publish_in (map_to_list (clients s)) rec0 s).
    assert (H0 : heap s !! 0%nat = Some (Chan 10 (replicate 10 rec0)))
      by (vm_compute; reflexivity).
    rewrite H0. apply (Hfull "aa"%string 0%nat); [vm_compute; reflexivity|done|].
    simpl. lia.
  - change (publish rec0 s) with (publish_in (map_to_list (clients s)) rec0 s).
    apply (Hroom "bb"%string 1%nat (Chan 10 []));
      [vm_compute; reflexivity|vm_compute; reflexivity|simpl; lia].
Defined.

(** *** First in, first out (C2) *)

Lemma buffer_lookup r s ch : heap s !! r = Some ch -> buffer r s = ch_buf ch.
Proof. unfold buffer. by intros ->. Qed.

Lemma publish_accepted m r s :
  wf s -> accepts r s -> buffer r (publish m s) = buffer r s ++ [m].
Proof.
  intros Hwf [Hreg (ch & Hch & Hroom)].
  apply (registered_in_order s (map_to_list (clients s)) r (reflexivity _)) in Hreg.
  unfold buffer at 1. unfold publish, publish_in. simpl.
  rewrite fanout_pointwise by done.
  destruct (decide _) as [_|Hnot]; [|done].
  rewrite Hch, (buffer_lookup r s ch Hch). simpl. unfold offered.
  by destruct (decide (length (ch_buf ch) < ch_cap ch)%nat).
Qed.

Lemma published_cons a rest :
  published (a :: rest) = published [a] ++ published rest.
Proof. by destruct a. Qed.

Lemma step_fifo a s s' c r h :
  wf s -> conns s !! c = Some h -> h_ch h = Some r -> only_loop c r s ->
  match a with
  | Publish _ => accepts r s
  | Upgrade id _ => clients s !! id ≠ Some r
  | _ => True
  end ->
  step a s = Some s' ->
  only_loop c r s' /\
  exists h', conns s' !! c = Some h' /\ h_ch h' = Some r /\
    h_recv h' ++ buffer r s' = h_recv h ++ buffer r s ++ published [a].
Proof.
  intros Hwf Hh Hr Honly Hside Hstep.
  pose proof (lookup_lt_Some _ _ _ Hh) as Hc.
  destruct a as [id|id ok|c' ok|c'|m]; simpl in Hstep.
  - injection Hstep as <-. split; [done|]. exists h. split; [done|]. split; [done|].
    unfold published, buffer. simpl. rewrite app_nil_r.
    rewrite lookup_app_l by (by apply (wf_conn s Hwf c h r)). done.
  - injection Hstep as <-. unfold socketHandler.
    destruct (String.eqb id EmptyString).
    { split; [done|]. exists h. unfold published. simpl. by rewrite app_nil_r. }
    destruct ok; simpl.
    2:{ split; [done|]. exists h. unfold published. simpl. by rewrite app_nil_r. }
    split.
    + intros c' h' Hh' Hr'. apply lookup_app_Some in Hh' as [Hh'|[_ Hh']].
      * by apply (Honly c' h').
      * destruct (c' - length (conns s))%nat; [|done].
        simpl in Hh'. injection Hh' as <-. simpl in Hr'. done.
    + exists h. rewrite lookup_app_l by done.
      unfold published, buffer. simpl. by rewrite app_nil_r.
  - apply deliver_Some in Hstep
      as (h0 & r0 & ch & val & rest & Hh0 & _ & Hr0 & Hch & Hbuf & Hheap & Hcase).
    assert (Hconns : exists hn, conns s' = <[c' := hn]> (conns s) /\
                                h_ch hn = h_ch h0 /\ h_recv hn = h_recv h0 ++ [val]).
    { destruct Hcase as [(_ & _ & ->)|(_ & _ & ->)]; eexists; (split; [done|]);
        done. }
    destruct Hconns as (hn & Hconns & Hchn & Hrecvn).
    assert (Honly' : only_loop c r s').
    { intros c2 h2 Hh2 Hr2. rewrite Hconns in Hh2.
      destruct (decide (c' = c2)) as [<-|Hne].
      - rewrite list_lookup_insert_eq in Hh2 by (by apply lookup_lt_Some in Hh0).
        injection Hh2 as <-. apply (Honly c' h0); [done|]. by rewrite <- Hchn.
      - rewrite list_lookup_insert_ne in Hh2 by done. by apply (Honly c2 h2). }
    split; [done|]. unfold published. simpl. rewrite app_nil_r.
    destruct (decide (c' = c)) as [->|Hne].
    + rewrite Hh in Hh0. injection Hh0 as <-.
      rewrite Hr in Hr0. injection Hr0 as <-.
      exists hn. rewrite Hconns, list_lookup_insert_eq by done.
      split; [done|]. split; [by rewrite Hchn|].
      rewrite Hrecvn, (buffer_lookup r s ch Hch), Hbuf. unfold buffer.
      rewrite Hheap, list_lookup_insert_eq by (by apply lookup_lt_Some in Hch).
      simpl. by rewrite <- app_assoc.
    + exists h. rewrite Hconns, list_lookup_insert_ne by done.
      split; [done|]. split; [done|]. f_equal. unfold buffer. rewrite Hheap.
      rewrite list_lookup_insert_ne; [done|]. intros ->.
      apply Hne. by apply (Honly c' h0).
  - unfold peer_close in Hstep.
    destruct (conns s !! c') as [h0|] eqn:Hh0; [|done].
    simpl in Hstep. injection Hstep as <-. unfold published. simpl.
    rewrite app_nil_r. split.
    + intros c2 h2 Hh2 Hr2. simpl in Hh2.
      destruct (decide (c' = c2)) as [<-|Hne].
      * rewrite list_lookup_insert_eq in Hh2 by (by apply lookup_lt_Some in Hh0).
        injection Hh2 as <-. by apply (Honly c' h0).
      * rewrite list_lookup_insert_ne in Hh2 by done. by apply (Honly c2 h2).
    + simpl. destruct (decide (c' = c)) as [->|Hne].
      * rewrite Hh in Hh0. injection Hh0 as <-.
        eexists. rewrite list_lookup_insert_eq by done. done.
      * exists h. by rewrite list_lookup_insert_ne.
  - injection Hstep as <-. split; [done|]. exists h. split; [done|].
    split; [done|]. unfold published. simpl.
    by rewrite publish_accepted.
Qed.

(** C2.  Take a delivery loop, the handler of connection [c], the only one
    on the channel at [r], and any run of the process during which every
    publish finds that channel registered and not full.  Then the values the
    loop has received from the channel, followed by those still waiting in
    it, are what they were before the run followed by the records published
    during it, in publish order: nothing is lost, repeated or reordered.
    From an empty queue and an empty log, the loop receives exactly
    P1..Pn once the queue is drained. *)
Theorem delivery_preserves_publish_order
  (acts : list action) (s s' : server) (c r : nat) (h : handler) :
  wf s -> conns s !! c = Some h -> h_ch h = Some r -> only_loop c r s ->
  undropped r acts s -> run acts s = Some s' ->
  exists h', conns s' !! c = Some h' /\ h_ch h' = Some r /\
    h_recv h' ++ buffer r s' = h_recv h ++ buffer r s ++ published acts /\
    (h_recv h = [] -> buffer r s = [] -> buffer r s' = [] ->
     h_recv h' = published acts).
Proof.
  intros Hwf Hh Hr Honly Hun Hrun.
  enough (exists h', conns s' !! c = Some h' /\ h_ch h' = Some r /\
            h_recv h' ++ buffer r s' = h_recv h ++ buffer r s ++ published acts)
    as (h' & H1 & H2 & H3).
  { exists h'. split; [done|]. split; [done|]. split; [done|].
    intros E1 E2 E3. rewrite E1, E2, E3, app_nil_r in H3. done. }
  revert s h Hwf Hh Hr Honly Hun Hrun.
  induction acts as [|a rest IH]; intros s h Hwf Hh Hr Honly Hun Hrun.
  - simpl in Hrun. injection Hrun as <-. exists h.
    unfold published. simpl. by rewrite app_nil_r.
  - simpl in Hun, Hrun. destruct Hun as [Hside Hun].
    destruct (step a s) as [s1|] eqn:Hstep; [|done]. simpl in Hrun.
    destruct (step_fifo a s s1 c r h Hwf Hh Hr Honly Hside Hstep)
      as (Honly1 & h1 & Hh1 & Hr1 & Heq1).
    destruct (IH s1 h1 (wf_step a s s1 Hwf Hstep) Hh1 Hr1 Honly1 Hun Hrun)
      as (h' & Hh' & Hr' & Heq').
    exists h'. split; [done|]. split; [done|].
    rewrite Heq'. rewrite app_assoc, Heq1.
    rewrite (published_cons a rest). by rewrite <- !app_assoc.
Qed.

Lemma delivery_preserves_publish_order_witness :
  exists h', conns (after (one_subscriber ++ keeps_up)) !! 0%nat = Some h' /\
             h_recv h' = [rec0; rec1; rec2].
Proof.
  destruct (delivery_preserves_publish_order keeps_up
              (after one_subscriber) (after (one_subscriber ++ keeps_up))
              0 0 (Handler "ab" (Some 0%nat) true false true [] []))
    as (h' & Hh' & _ & _ & Hall).
  - apply wf_after.
  - reflexivity.
  - reflexivity.
  - intros c' h'. change (conns (after one_subscriber))
      with [Handler "ab" (Some 0%nat) true false true [] []].
    destruct c' as [|[|c']]; [done|done|done].
  - vm_compute.
    repeat (split; [first [exact I
                          | split; [by exists "ab"%string
                                   | eexists; split; [reflexivity|simpl; lia]]]|]).
    exact I.
  - vm_compute. reflexivity.
  - exists h'. split; [exact Hh'|]. apply Hall; reflexivity.
Defined.

(** *** Teardown (C9) *)

Lemma registry_step_shrinks a s s' id :
  step a s = Some s' -> is_Some (clients s !! id) -> clients s' !! id = None ->
  exists c ok, a = Deliver c ok.
Proof.
  intros Hstep [r Hr] Hnone. destruct a as [id0|id0 ok|c ok|c|m]; simpl in Hstep.
  - injection Hstep as <-. simpl in Hnone.
    destruct (decide (id0 = id)) as [->|Hne].
    + by rewrite lookup_insert_eq in Hnone.
    + rewrite lookup_insert_ne in Hnone by done. congruence.
  - injection Hstep as <-. unfold socketHandler in Hnone.
    destruct (String.eqb id0 EmptyString); simpl in Hnone; [congruence|].
    destruct ok; simpl in Hnone; congruence.
  - by exists c, ok.
  - unfold peer_close in Hstep. destruct (conns s !! c); [|done].
    injection Hstep as <-. simpl in Hnone. congruence.
  - injection Hstep as <-. simpl in Hnone. congruence.
Qed.

Lemma deliver_failed_write c s s' h :
  deliver c false s = Some s' -> conns s !! c = Some h ->
  torn_down c (h_id h) s'.
Proof.
  intros Hd Hh.
  apply deliver_Some in Hd
    as (h0 & r & ch & val & rest & Hh0 & _ & _ & _ & _ & _ & Hcase).
  rewrite Hh in Hh0. injection Hh0 as <-.
  destruct Hcase as [(Hok & _)|(_ & Hcl & Hcs)]; [congruence|].
  split.
  - eexists. rewrite Hcs.
    rewrite list_lookup_insert_eq by (by apply lookup_lt_Some in Hh). done.
  - rewrite Hcl. apply lookup_delete_eq.
Qed.

(** C9, as the code has it.  In a delivering handler a write that returns
    an error triggers exactly the teardown: the loop is over, the transport
    closed, the identifier out of the registry.  A write that returns no
    error, be it after the peer has gone, leaves the registry alone and the
    loop running.  The peer closing the connection runs no code of the
    server: registry and queues stay as they are, and every handler keeps
    running or stopped as it was.  And an identifier leaves the registry by
    no other step than such a teardown. *)
Theorem teardown_on_write_failure_only (a : action) (s s' : server) :
  step a s = Some s' ->
  (forall c h, a = Deliver c false -> conns s !! c = Some h ->
     torn_down c (h_id h) s') /\
  (forall c h, a = Deliver c true -> conns s !! c = Some h ->
     clients s' = clients s /\
     exists h', conns s' !! c = Some h' /\ h_running h' = true /\
                h_closed h' = h_closed h) /\
  (forall c, a = PeerClose c ->
     clients s' = clients s /\ heap s' = heap s /\
     forall c' h, conns s !! c' = Some h ->
       exists h', conns s' !! c' = Some h' /\
                  h_running h' = h_running h /\ h_closed h' = h_closed h) /\
  (forall id, is_Some (clients s !! id) -> clients s' !! id = None ->
     exists c h, a = Deliver c false /\ conns s !! c = Some h /\
       h_id h = id /\ h_running h = true /\ torn_down c id s').
Proof.
  intros Hstep. split; [|split; [|split]].
  - intros c h -> Hh. by apply (deliver_failed_write c s s' h).
  - intros c h -> Hh. simpl in Hstep.
    apply deliver_Some in Hstep
      as (h0 & r & ch & val & rest & Hh0 & _ & _ & _ & _ & _ & Hcase).
    rewrite Hh in Hh0. injection Hh0 as <-.
    destruct Hcase as [(_ & Hcl & Hcs)|(Hfail & _)]; [|congruence].
    split; [done|]. eexists. rewrite Hcs.
    rewrite list_lookup_insert_eq by (by apply lookup_lt_Some in Hh). done.
  - intros c ->. simpl in Hstep. unfold peer_close in Hstep.
    destruct (conns s !! c) as [h0|] eqn:Hh0; [|done].
    injection Hstep as <-. simpl. split; [done|]. split; [done|].
    intros c' h Hh. destruct (decide (c = c')) as [<-|Hne].
    + rewrite Hh0 in Hh. injection Hh as <-. eexists.
      rewrite list_lookup_insert_eq by (by apply lookup_lt_Some in Hh0). done.
    + exists h. by rewrite list_lookup_insert_ne.
  - intros id Hin Hout.
    destruct (registry_step_shrinks a s s' id Hstep Hin Hout) as (c & ok & ->).
    simpl in Hstep. pose proof Hstep as Hd.
    apply deliver_Some in Hd
      as (h & r & ch & val & rest & Hh & Hrun & _ & _ & _ & _ & Hcase).
    destruct Hcase as [(_ & Hcl & _)|(-> & Hcl & _)].
    { rewrite Hcl in Hout. destruct Hin as [x Hx]. congruence. }
    assert (Hid : h_id h = id).
    { destruct (decide (h_id h = id)) as [|Hne]; [done|].
      rewrite Hcl, lookup_delete_ne in Hout by done.
      destruct Hin as [x Hx]. congruence. }
    exists c, h. repeat (split; [done|]).
    rewrite <- Hid. by apply (deliver_failed_write c s s' h).
Qed.

Lemma teardown_on_write_failure_only_witness :
  torn_down 0 "ab" (after (one_subscriber ++ [Publish rec0; Deliver 0 false])).
Proof.
  apply (proj1 (teardown_on_write_failure_only (Deliver 0 false)
                  (after (one_subscriber ++ [Publish rec0]))
                  (after (one_subscriber ++ [Publish rec0; Deliver 0 false]))
                  ltac:(vm_compute; reflexivity))
           0%nat (Handler "ab" (Some 0%nat) true false true [] [])).
  - reflexivity.
  - vm_compute. reflexivity.
Defined.

(** C9 as stated fails: the subscriber ["ab"] is delivering, its peer closes
    the connection, and nothing is torn down.  The loop still runs, the
    transport is not closed, ["ab"] is still in the registry, and the handler
    cannot move, as it waits on its empty queue; whatever the handler and
    its peer do from there, the hub stays as it is.  Even when a record is
    published afterwards and its write returns no error, the subscriber
    stays registered and its loop running. *)
Lemma closed_connection_not_torn_down :
  exists h s',
    conns (after one_subscriber) !! 0%nat = Some h /\
    h_id h = "ab"%string /\ h_running h = true /\
    peer_close 0 (after one_subscriber) = Some s' /\
    ~ torn_down 0 "ab" s' /\
    conns s' !! 0%nat = Some (Handler "ab" (Some 0%nat) false false true [] []) /\
    clients s' !! "ab"%string = Some 0%nat /\
    (forall ok, deliver 0 ok s' = None) /\
    (forall acts s'',
        Forall (fun a => a = PeerClose 0 \/ exists ok, a = Deliver 0 ok) acts ->
        run acts s' = Some s'' -> s'' = s') /\
    (exists s3, run [Publish rec0; Deliver 0 true] s' = Some s3 /\
                ~ torn_down 0 "ab" s3 /\
                clients s3 !! "ab"%string = Some 0%nat /\
                conns s3 !! 0%nat
                = Some (Handler "ab" (Some 0%nat) false false true
                          [rec0] [rec0])).
Proof.
  exists (Handler "ab" (Some 0%nat) true false true [] []).
  eexists. split; [reflexivity|]. split; [reflexivity|]. split; [reflexivity|].
  split; [vm_compute; reflexivity|].
  set (s' := Server _ _ _).
  assert (Hreg : clients s' !! "ab"%string = Some 0%nat) by (vm_compute; reflexivity).
  assert (Hstuck : forall ok, deliver 0 ok s' = None)
    by (intros ok; destruct ok; vm_compute; reflexivity).
  split; [intros [_ Hnone]; congruence|].
  split; [reflexivity|]. split; [exact Hreg|]. split; [exact Hstuck|].
  split.
  - intros acts. induction acts as [|a rest IH]; intros s'' Hall Hrun.
    + simpl in Hrun. by injection Hrun as <-.
    + apply Forall_cons in Hall as [[->|[ok ->]] Hall]; cbn [run step] in Hrun.
      * change (peer_close 0 s') with (Some s') in Hrun. by apply IH.
      * rewrite Hstuck in Hrun. done.
  - eexists. split; [vm_compute; reflexivity|].
    split; [|split; [vm_compute; reflexivity|vm_compute; reflexivity]].
    intros [_ Hnone]. vm_compute in Hnone. discriminate Hnone.
Qed.

(** *** A channel out of the registry gets nothing (C10, C4) *)

Lemma publish_unregistered m s r :
  (forall id, clients s !! id ≠ Some r) ->
  heap (publish m s) !! r = heap s !! r.
Proof.
  intros Hr. unfold publish, publish_in. simpl.
  apply fanout_lookup_other. intros Hin.
  apply (registered_in_order s _ r (reflexivity _)) in Hin as [id Hid].
  by apply (Hr id).
Qed.

Lemma publish_all_frame ms : forall s,
  clients (publish_all ms s) = clients s /\
  conns (publish_all ms s) = conns s /\
  forall r, (forall id, clients s !! id ≠ Some r) ->
            heap (publish_all ms s) !! r = heap s !! r.
Proof.
  induction ms as [|m rest IH]; intros s; simpl; [done|].
  destruct (IH (publish m s)) as (Hc & Hn & Hh).
  split; [by rewrite Hc|]. split; [by rewrite Hn|].
  intros r Hr. rewrite Hh by done. by apply publish_unregistered.
Qed.

(** A handler on the nil channel never moves. *)
Lemma deliver_nil c ok s h :
  conns s !! c = Some h -> h_ch h = None -> deliver c ok s = None.
Proof.
  intros Hh Hnil. unfold deliver. rewrite Hh. simpl.
  destruct (h_running h); [|done]. by rewrite Hnil.
Qed.

(** A handler on an empty channel waits. *)
Lemma deliver_empty c ok s h r :
  conns s !! c = Some h -> h_ch h = Some r -> buffer r s = [] ->
  deliver c ok s = None.
Proof.
  intros Hh Hr Hbuf. unfold deliver. rewrite Hh. simpl.
  destruct (h_running h); [|done]. rewrite Hr. simpl.
  unfold buffer in Hbuf. destruct (heap s !! r) as [ch|]; [|done].
  simpl in *. unfold try_recv. by rewrite Hbuf.
Qed.

(** C10.  [registerHandler] with an identifier that the registry already
    holds, for a subscriber whose delivery loop runs on the channel [old]:
    the answer is 200 with the identifier, as for any registration; the
    entry now names a new, empty channel; no entry names [old] any more, so
    that whatever is published later never reaches it; and the old loop is
    as it was, on [old], where it waits for ever once the queue is empty. *)
Theorem register_collision_orphans
  (s : server) (id : string) (old c : nat) (h : handler) :
  wf s -> clients s !! id = Some old ->
  conns s !! c = Some h -> h_ch h = Some old -> h_running h = true ->
  let s' := (registerHandler id s).1 in
  let new := length (heap s) in
  (registerHandler id s).2 = Status 200 id /\
  clients s' = <[id := new]> (clients s) /\
  new ≠ old /\ heap s' !! new = Some (make_chan 10) /\
  (forall id', clients s' !! id' ≠ Some old) /\
  (forall ms, let s'' := publish_all ms s' in
     heap s'' !! old = heap s !! old /\ conns s'' !! c = Some h /\
     (buffer old s = [] -> forall ok, deliver c ok s'' = None)).
Proof.
  intros Hwf Hid Hh Hch Hrun s' new.
  pose proof (wf_bound s Hwf id old Hid) as Hold.
  assert (Hnone : forall id', clients s' !! id' ≠ Some old).
  { intros id'. unfold s'. simpl. destruct (decide (id = id')) as [<-|Hne].
    - rewrite lookup_insert_eq. intros [= E]. lia.
    - rewrite lookup_insert_ne by done. intros Hid'.
      apply Hne. by apply (wf_inj s Hwf id id' old). }
  split; [done|]. split; [done|]. split; [unfold new; lia|].
  split; [unfold s', new; simpl; by rewrite lookup_app_r, Nat.sub_diag|].
  split; [exact Hnone|].
  intros ms s''. destruct (publish_all_frame ms s') as (_ & Hconns & Hheap).
  assert (Hsame : heap s'' !! old = heap s !! old).
  { unfold s''. rewrite Hheap by exact Hnone. unfold s'. simpl.
    by rewrite lookup_app_l. }
  split; [exact Hsame|]. split; [unfold s''; by rewrite Hconns|].
  intros Hempty ok. apply (deliver_empty c ok s'' h old); [|done|].
  - unfold s''. by rewrite Hconns.
  - unfold buffer in *. by rewrite Hsame.
Qed.

Lemma register_collision_orphans_witness :
  let s' := (registerHandler "ab" (after one_subscriber)).1 in
  clients s' !! "ab"%string = Some 1%nat /\
  buffer 0 (publish_all [rec0; rec1] s') = [] /\
  buffer 1 (publish_all [rec0; rec1] s') = [rec0; rec1] /\
  forall ok, deliver 0 ok (publish_all [rec0; rec1] s') = None.
Proof.
  intros s'.
  destruct (register_collision_orphans (after one_subscriber) "ab" 0 0
              (Handler "ab" (Some 0%nat) true false true [] []))
    as (_ & _ & _ & _ & _ & Hlater).
  - apply wf_after.
  - vm_compute. reflexivity.
  - reflexivity.
  - reflexivity.
  - reflexivity.
  - split; [vm_compute; reflexivity|].
    split; [vm_compute; reflexivity|].
    split; [vm_compute; reflexivity|].
    apply (Hlater [rec0; rec1]). reflexivity.
Defined.

(** C4, on the code.  A request for an identifier that is not empty and not
    in the registry is not answered with 404.  If the upgrade succeeds, a
    delivery loop is started on the nil channel; it can never move, whatever
    is published, so it never ends and its connection is never closed. *)
Theorem unknown_id_not_rejected (s : server) (id : string) (ok : bool) :
  id ≠ EmptyString -> clients s !! id = None ->
  (forall body, (socketHandler id ok s).2 ≠ Status 404 body) /\
  let s' := (socketHandler id true s).1 in
  let c := length (conns s) in
  (socketHandler id true s).2 = Upgraded c /\
  conns s' !! c = Some (Handler id None true false true [] []) /\
  clients s' = clients s /\
  forall ms w, deliver c w (publish_all ms s') = None.
Proof.
  intros Hid Hnone. unfold socketHandler.
  destruct (String.eqb_spec id EmptyString) as [|_]; [done|].
  rewrite Hnone. split; [by destruct ok|]. simpl.
  split; [done|].
  assert (Hh : (conns s ++ [Handler id None true false true [] []])
                 !! length (conns s) = Some (Handler id None true false true [] [])).
  { by rewrite lookup_app_r, Nat.sub_diag. }
  split; [exact Hh|]. split; [done|]. intros ms w.
  apply (deliver_nil _ _ _ (Handler id None true false true [] [])); [|done].
  destruct (publish_all_frame ms
              (Server (heap s) (clients s)
                 (conns s ++ [Handler id None true false true [] []])))
    as (_ & -> & _).
  exact Hh.
Qed.

Lemma unknown_id_not_rejected_witness :
  (socketHandler "deadbeef" true init).2 = Upgraded 0 /\
  forall ms w,
    deliver 0 w (publish_all ms (socketHandler "deadbeef" true init).1) = None.
Proof.
  destruct (unknown_id_not_rejected init "deadbeef" true)
    as (_ & Hup & _ & _ & Hstuck).
  - done.
  - reflexivity.
  - split; [exact Hup|exact Hstuck].
Defined.

Example empty_id_is_404 s ok :
  socketHandler EmptyString ok s = (s, Status 404 EmptyString).
Proof. reflexivity. Qed.

(** ** Further properties of the code *)

(** *** [getIp] and the name of the category *)

Lemma genSplit_nonempty sep k s : genSplit sep k s ≠ [].
Proof.
  revert k. induction s as [|c r IH]; intros k; simpl; [done|].
  destruct k as [|k]; [done|].
  destruct (Ascii.eqb c sep); [done|].
  by destruct (genSplit sep (S k) r).
Qed.

Lemma genSplit_hd sep s :
  exists rest,
    s = (hd EmptyString (genSplit sep 1 s) ++ rest)%string /\
    (rest = EmptyString \/ exists r, rest = String sep r) /\
    count_char sep (hd EmptyString (genSplit sep 1 s)) = 0%nat.
Proof.
  induction s as [|c r (rest & Hr & Hrest & Hcount)]; simpl.
  { exists EmptyString. auto. }
  destruct (Ascii.eqb_spec c sep) as [->|Hne]; simpl.
  { exists (String sep r). split; [done|]. split; [|done]. right. by exists r. }
  pose proof (genSplit_nonempty sep 1 r) as Hnon.
  destruct (genSplit sep 1 r) as [|h t]; [done|]. simpl in *.
  exists rest. split; [by rewrite Hr at 1|]. split; [done|].
  destruct (Ascii.eqb_spec c sep); [done|]. done.
Qed.

(** X1.  [getIp line] is the part of the line before its first ['-'], or the
    whole line when there is none: the line is [getIp line] followed by
    nothing or by a text that starts with ['-'], and [getIp line] has no
    ['-'] in it. *)
Theorem getIp_before_first_dash (line : string) :
  exists rest,
    line = (getIp line ++ rest)%string /\
    (rest = EmptyString \/ exists r, rest = String "-"%char r) /\
    count_char "-"%char (getIp line) = 0%nat.
Proof. apply (genSplit_hd "-"%char line). Qed.

Lemma Join_cons_empty x l :
  Join (x :: l) EmptyString = (x ++ Join l EmptyString)%string.
Proof.
  destruct l as [|y l]; [|done]. cbn [Join].
  induction x as [|c x IH]; [done|].
  change (String c x = String c (x ++ EmptyString)%string). by f_equal.
Qed.

Lemma remove_char_none c s : count_char c s = 0%nat -> remove_char c s = s.
Proof.
  induction s as [|x r IH]; simpl; [done|].
  destruct (Ascii.eqb x c); [done|]. intros H. by rewrite IH.
Qed.

Lemma Join_genSplit sep s : forall k,
  (count_char sep s <= k)%nat ->
  Join (genSplit sep k s) EmptyString = remove_char sep s.
Proof.
  induction s as [|c r IH]; intros k Hk; [done|].
  destruct k as [|k].
  { cbn [genSplit Join]. symmetry. apply remove_char_none. lia. }
  cbn [genSplit remove_char]. simpl in Hk.
  destruct (Ascii.eqb c sep).
  - rewrite Join_cons_empty. simpl. apply IH. lia.
  - pose proof (genSplit_nonempty sep (S k) r) as Hnon.
    specialize (IH (S k) ltac:(lia)).
    destruct (genSplit sep (S k) r) as [|h t]; [done|].
    rewrite Join_cons_empty. rewrite Join_cons_empty in IH.
    change (String c (h ++ Join t EmptyString)%string
            = String c (remove_char sep r)).
    by f_equal.
Qed.

Lemma count_char_length c s : (count_char c s <= String.length s)%nat.
Proof.
  induction s as [|x r IH]; simpl; [done|]. destruct (Ascii.eqb x c); lia.
Qed.

Lemma Replace_empty s old : Replace s old EmptyString = remove_char old s.
Proof.
  induction s as [|c r IH]; simpl; [done|].
  destruct (Ascii.eqb c old); simpl; by rewrite IH.
Qed.

Lemma count_remove_char c s : count_char c (remove_char c s) = 0%nat.
Proof.
  induction s as [|x r IH]; simpl; [done|].
  destruct (Ascii.eqb x c) eqn:E; simpl; [done|]. by rewrite E.
Qed.

Lemma count_remove_other c d s :
  (count_char c (remove_char d s) <= count_char c s)%nat.
Proof.
  induction s as [|x r IH]; simpl; [done|].
  destruct (Ascii.eqb x d); simpl; lia.
Qed.

(** X2.  The name looked up in the vocabulary is the match with every space
    and every ['/'] taken out, and nothing else: other bytes, a tab for one,
    stay.  So the name has neither a space nor a ['/']. *)
Theorem distro_name_strips (match1 : string) :
  distro_name match1 = remove_char "/"%char (remove_char " "%char match1) /\
  count_char " "%char (distro_name match1) = 0%nat /\
  count_char "/"%char (distro_name match1) = 0%nat.
Proof.
  assert (H : distro_name match1
              = remove_char "/"%char (remove_char " "%char match1)).
  { unfold distro_name, SplitN. cbn [Z.eqb Z.ltb Z.compare].
    rewrite Join_genSplit by apply count_char_length.
    apply Replace_empty. }
  rewrite H. split; [done|]. split; [|apply count_remove_char].
  pose proof (count_remove_other " "%char "/"%char (remove_char " "%char match1)).
  rewrite count_remove_char in *. lia.
Qed.

Example distro_name_keeps_tab :
  distro_name (String "/" (String "u" (String "009" (String " " (String "b" "/")))))
  = String "u" (String "009" "b").
Proof. reflexivity. Qed.

(** *** The matches of the expression *)

Lemma match_here_shape s m rest :
  match_here s = Some (m, rest) ->
  exists body, m = String slash (body ++ String slash EmptyString)%string /\
               plain body = true /\ s = (m ++ rest)%string.
Proof.
  destruct s as [|c r]; simpl; [done|].
  destruct (Ascii.eqb_spec c slash) as [->|]; [|done].
  destruct (lazy_dots_slash r) as [[m' rest']|] eqn:Hr; [|done].
  intros [= <- <-].
  apply lazy_dots_slash_shape in Hr as (body & -> & Hp & ->).
  by exists body.
Qed.

Lemma FindAll_shape n : forall s,
  Forall (fun m => exists body,
            m = String slash (body ++ String slash EmptyString)%string /\
            plain body = true) (FindAll n s).
Proof.
  induction n as [|n IH]; intros s; simpl; [constructor|].
  destruct s as [|c r]; [constructor|].
  destruct (match_here (String c r)) as [[m rest]|] eqn:Hm; [|apply IH].
  constructor; [|apply IH].
  apply match_here_shape in Hm as (body & -> & Hp & _). by exists body.
Qed.

Lemma lazy_dots_slash_count s :
  count_char newline s = 0%nat ->
  match lazy_dots_slash s with
  | Some (_, rest) =>
      count_char slash s = S (count_char slash rest) /\
      count_char newline rest = 0%nat
  | None => count_char slash s = 0%nat
  end.
Proof.
  induction s as [|c r IH]; simpl; [done|].
  destruct (Ascii.eqb c slash) eqn:Es.
  { destruct (Ascii.eqb c newline); intros H; [done|]. simpl in H. done. }
  destruct (Ascii.eqb c newline) eqn:En; [done|]. simpl. intros Hn.
  specialize (IH Hn). by destruct (lazy_dots_slash r) as [[m rest]|].
Qed.

Lemma FindAll_count n : forall s,
  (String.length s <= n)%nat -> count_char newline s = 0%nat ->
  length (FindAll n s) = Nat.div2 (count_char slash s).
Proof.
  induction n as [n IH] using lt_wf_ind. intros s Hlen Hnl.
  destruct s as [|c r]; [by destruct n|].
  destruct n as [|n]; [simpl in Hlen; lia|].
  cbn [FindAll]. unfold match_here. cbn [count_char] in *. simpl in Hlen.
  assert (Hnr : count_char newline r = 0%nat) by lia.
  destruct (Ascii.eqb c slash) eqn:Es.
  - pose proof (lazy_dots_slash_count r Hnr) as Hc.
    destruct (lazy_dots_slash r) as [[m rest]|] eqn:Hr.
    + destruct Hc as [Hc Hn']. apply lazy_dots_slash_shorter in Hr.
      cbn [length]. rewrite (IH n) by (done || lia). rewrite Hc. done.
    + rewrite (IH n) by (done || lia). rewrite Hc. done.
  - rewrite (IH n) by (done || lia). done.
Qed.

(** X4.  On a line without a newline, as the scanner gives them, the
    expression matches once for every two ['/']: the number of matches is
    half the number of ['/'], rounded down.  So a line is sent on only if it
    has at least four ['/']: [GET /pub/ubuntu/ HTTP/1.1] is, [GET
    /pub/ubuntu/] is not. *)
Theorem FindAllString_count (line : string) :
  count_char newline line = 0%nat ->
  length (FindAllString line) = Nat.div2 (count_char slash line) /\
  ((count_char slash line < 4)%nat ->
   forall E prevIp m p, fileIn_body E prevIp line ≠ (Send m, p)).
Proof.
  intros Hnl.
  assert (Hlen : length (FindAllString line) = Nat.div2 (count_char slash line)).
  { by apply FindAll_count. }
  split; [exact Hlen|]. intros Hfew E prevIp m p Hb.
  apply fileIn_body_Send in Hb as (_ & _ & _ & Hge & _).
  rewrite Hlen in Hge.
  destruct (count_char slash line) as [|[|[|[|k]]]]; simpl in Hge; lia.
Qed.

Lemma FindAllString_count_witness :
  length (FindAllString "203.0.113.5 - GET /pub/ubuntu/") = 1%nat /\
  forall E prevIp m p,
    fileIn_body E prevIp "203.0.113.5 - GET /pub/ubuntu/" ≠ (Send m, p).
Proof.
  destruct (FindAllString_count "203.0.113.5 - GET /pub/ubuntu/" eq_refl)
    as [Hlen Hskip].
  split; [exact Hlen|]. apply Hskip. vm_compute. lia.
Defined.

Lemma append_assoc_s (a b c : string) :
  ((a ++ b) ++ c = a ++ (b ++ c))%string.
Proof.
  induction a as [|x a IH]; [done|].
  change (String x ((a ++ b) ++ c) = String x (a ++ (b ++ c)))%string.
  by f_equal.
Qed.

Lemma count_char_app c (a b : string) :
  count_char c (a ++ b)%string = (count_char c a + count_char c b)%nat.
Proof.
  induction a as [|x a IH]; [done|].
  change (count_char c (String x (a ++ b)%string)
          = (count_char c (String x a) + count_char c b)%nat).
  simpl. rewrite IH. lia.
Qed.

Lemma FindAll_split n : forall s,
  (String.length s <= n)%nat ->
  exists pairs last,
    s = (flat pairs ++ last)%string /\
    FindAll n s = pairs.*2 /\
    (count_char newline s = 0%nat ->
     Forall (fun p : string * string => count_char slash p.1 = 0%nat) pairs /\
     (count_char slash last <= 1)%nat).
Proof.
  induction n as [n IH] using lt_wf_ind. intros s Hlen.
  destruct s as [|c r].
  { exists [], EmptyString. split; [done|]. split; [by destruct n|].
    intros _. split; [constructor|simpl; lia]. }
  destruct n as [|n]; [simpl in Hlen; lia|]. simpl in Hlen.
  cbn [FindAll].
  destruct (match_here (String c r)) as [[m rest]|] eqn:Hm.
  - pose proof (match_here_shorter _ _ _ Hm) as Hlt. simpl in Hlt.
    pose proof Hm as Hshape.
    apply match_here_shape in Hshape as (body & _ & _ & Hs).
    destruct (IH n ltac:(lia) rest ltac:(lia)) as (pairs & last & Hr & HF & Hgap).
    exists ((EmptyString, m) :: pairs), last.
    split; [|split].
    + rewrite Hs. cbn [flat]. rewrite Hr at 1.
      change (EmptyString ++ m ++ flat pairs)%string
        with (m ++ flat pairs)%string.
      by rewrite append_assoc_s.
    + by rewrite HF.
    + intros Hnl. rewrite Hs, count_char_app in Hnl.
      destruct (Hgap ltac:(lia)) as [Hall Hlast].
      split; [|done]. by constructor.
  - destruct (IH n ltac:(lia) r ltac:(lia)) as (pairs & last & Hr & HF & Hgap).
    assert (Hsl : count_char newline (String c r) = 0%nat ->
                  Ascii.eqb c slash = true -> count_char slash r = 0%nat).
    { intros Hnl Hc. cbn [count_char] in Hnl.
      pose proof (lazy_dots_slash_count r ltac:(lia)) as Hcount.
      unfold match_here in Hm. rewrite Hc in Hm.
      by destruct (lazy_dots_slash r) as [[m' rest']|]. }
    destruct pairs as [|[g m] tl].
    + change (flat [] ++ last)%string with last in Hr. subst last.
      exists [], (String c r). split; [done|]. split; [done|].
      intros Hnl. split; [constructor|].
      cbn [count_char] in *. destruct (Hgap ltac:(lia)) as [_ Hlast].
      destruct (Ascii.eqb c slash) eqn:Hc; [|simpl; lia].
      specialize (Hsl Hnl eq_refl). lia.
    + exists ((String c g, m) :: tl), last. split; [by rewrite Hr|].
      split; [done|]. intros Hnl.
      cbn [count_char] in Hnl. destruct (Hgap ltac:(lia)) as [Hall Hlast].
      split; [|done]. apply Forall_cons in Hall as [Hg Hall].
      constructor; [|done]. cbn [fst count_char] in *.
      destruct (Ascii.eqb c slash) eqn:Hc; [|simpl; lia].
      exfalso. assert (Hz : count_char slash r = 0%nat).
      { apply Hsl; [|done]. cbn [count_char]. lia. }
      pose proof (FindAll_count n r ltac:(lia) ltac:(lia)) as Hcnt.
      rewrite HF, Hz in Hcnt. done.
Qed.

(** X3.  The matches [FindAllString] gives are pieces of the line that
    follow one another without overlap: the line is a gap, a match, a gap,
    a match and so on, then a last gap.  Every match is a ['/'], then a text
    with neither a ['/'] nor a newline, then a ['/'].  On a line without a
    newline no gap before a match has a ['/'] and the last gap has at most
    one: a match starts at the first ['/'] after the match before it, so a
    path [/a/b/c/] gives [/a/] and [/c/], and [/b/] is never a match. *)
Theorem FindAllString_matches (line : string) :
  exists (pairs : list (string * string)) (last : string),
    line = (flat pairs ++ last)%string /\
    FindAllString line = pairs.*2 /\
    Forall (fun m => exists body,
              m = String slash (body ++ String slash EmptyString)%string /\
              plain body = true) (FindAllString line) /\
    (count_char newline line = 0%nat ->
     Forall (fun p : string * string => count_char slash p.1 = 0%nat) pairs /\
     (count_char slash last <= 1)%nat).
Proof.
  destruct (FindAll_split (String.length line) line (le_n _))
    as (pairs & last & Hs & HF & Hgap).
  exists pairs, last. split; [done|]. split; [done|].
  split; [apply FindAll_shape|done].
Qed.

Example FindAllString_skips_b :
  FindAllString "GET /a/b/c/ HTTP" = ["/a/"; "/c/"]%string.
Proof. reflexivity. Qed.

(** *** The vocabulary *)

Lemma fill_distMap_index l : forall i m (k : nat) name,
  NoDup l -> l !! k = Some name ->
  fill_distMap i l m !! name = Some (i + Z.of_nat k).
Proof.
  induction l as [|d rest IH]; intros i m k name Hnd Hk; [done|].
  apply NoDup_cons in Hnd as [Hnot Hnd]. simpl. destruct k as [|k].
  - injection Hk as ->. rewrite fill_distMap_other by done.
    rewrite lookup_insert_eq. f_equal. lia.
  - simpl in Hk. rewrite (IH (i + 1) _ k name Hnd Hk). f_equal. lia.
Qed.

Lemma distList_NoDup : NoDup distList.
Proof. apply (bool_decide_unpack _). vm_compute. exact I. Qed.

(** X5.  The vocabulary has 44 names, none twice.  The name at position [i]
    of [distList] gets the index [i], and the category byte of the record is
    [i] itself: no index is cut by the conversion to a byte. *)
Theorem vocabulary_index (i : nat) (name : string) (lat long : float64) :
  distList !! i = Some name ->
  map_index distMap name = Z.of_nat i /\
  0 <= Z.of_nat i < 44 /\
  encode (map_index distMap name) lat long !! 0%nat = Some (Z.of_nat i).
Proof.
  intros Hi.
  assert (Hidx : map_index distMap name = Z.of_nat i).
  { unfold map_index, distMap.
    by rewrite (fill_distMap_index distList 0 ∅ i name distList_NoDup Hi). }
  assert (Hlt : (i < 44)%nat) by (by apply lookup_lt_Some in Hi).
  split; [exact Hidx|]. split; [lia|].
  rewrite encode_cons, Hidx. simpl. f_equal. apply byte_id. lia.
Qed.

Lemma vocabulary_index_witness :
  map_index distMap "zorinos" = 43 /\
  encode (map_index distMap "zorinos") f64_zero f64_zero !! 0%nat = Some 43.
Proof.
  destruct (vocabulary_index 43 "zorinos" f64_zero f64_zero eq_refl)
    as (H1 & _ & H2).
  split; [exact H1|exact H2].
Defined.

(** *** The loop against the hub *)

Lemma publish_frame m s :
  clients (publish m s) = clients s /\ conns (publish m s) = conns s.
Proof. done. Qed.

Lemma publish_registered m s id r ch :
  wf s -> clients s !! id = Some r -> heap s !! r = Some ch ->
  heap (publish m s) !! r = Some (offered m ch).
Proof.
  intros Hwf Hid Hch. unfold publish, publish_in. simpl.
  rewrite fanout_pointwise by done.
  destruct (decide _) as [_|Hnot]; [by rewrite Hch|].
  destruct Hnot.
  apply (registered_in_order s _ r (reflexivity _)). by exists id.
Qed.

(** X6.  What [fileIn] does to the hub on a feed is to publish, one after
    the other, the records of the iterations that send one: the registry and
    the handlers are left alone, and so is the hub as a whole when no
    iteration sends. *)
Theorem fileIn_publishes_sent (E : extern) (lines : list string) :
  forall (prevIp : string) (s : server),
    fileIn E prevIp lines s
    = publish_all (sent (fileIn_trace E prevIp lines)) s /\
    clients (fileIn E prevIp lines s) = clients s /\
    conns (fileIn E prevIp lines s) = conns s.
Proof.
  assert (H : forall prevIp s, fileIn E prevIp lines s
              = publish_all (sent (fileIn_trace E prevIp lines)) s).
  { induction lines as [|line rest IH]; intros prevIp s; simpl; [done|].
    destruct (fileIn_body E prevIp line) as [[| | | |m] p]; simpl;
      by rewrite ?IH. }
  intros prevIp s. rewrite H. split; [done|].
  destruct (publish_all_frame (sent (fileIn_trace E prevIp lines)) s)
    as (Hc & Hn & _).
  done.
Qed.

Lemma publish_all_fill ms : forall s id r ch,
  wf s -> clients s !! id = Some r -> heap s !! r = Some ch ->
  heap (publish_all ms s) !! r
  = Some (Chan (ch_cap ch)
               (ch_buf ch ++ take (ch_cap ch - length (ch_buf ch)) ms)).
Proof.
  induction ms as [|m rest IH]; intros s id r ch Hwf Hid Hch; simpl.
  { rewrite take_nil, app_nil_r. by destruct ch. }
  pose proof (publish_registered m s id r ch Hwf Hid Hch) as Hpub.
  rewrite (IH (publish m s) id r (offered m ch));
    [|by apply wf_publish_in|done|done].
  unfold offered.
  destruct (decide (length (ch_buf ch) < ch_cap ch)%nat) as [Hroom|Hfull].
  - simpl. rewrite length_app. simpl.
    replace (ch_cap ch - length (ch_buf ch))%nat
      with (S (ch_cap ch - (length (ch_buf ch) + 1)))%nat by lia.
    simpl. by rewrite <- app_assoc.
  - replace (ch_cap ch - length (ch_buf ch))%nat with 0%nat by lia.
    by rewrite !take_0.
Qed.

(** X7.  When records are published one after the other and nothing is
    taken out in between, a registered queue takes the first ones, as many
    as it has room for, in order, and the later ones are dropped: the oldest
    records are kept, not the newest. *)
Theorem publish_all_keeps_oldest
  (ms : list msg) (s : server) (id : string) (r : nat) (ch : chan) :
  wf s -> clients s !! id = Some r -> heap s !! r = Some ch ->
  buffer r (publish_all ms s)
  = ch_buf ch ++ take (ch_cap ch - length (ch_buf ch)) ms.
Proof.
  intros Hwf Hid Hch. unfold buffer.
  by rewrite (publish_all_fill ms s id r ch).
Qed.

Lemma publish_all_keeps_oldest_witness :
  buffer 0 (publish_all (replicate 9 rec0 ++ [rec1; rec2])
              (after [Register "aa"]))
  = replicate 9 rec0 ++ [rec1].
Proof.
  rewrite (publish_all_keeps_oldest _ (after [Register "aa"]) "aa" 0
             (Chan 10 [])).
  - reflexivity.
  - apply wf_after.
  - vm_compute. reflexivity.
  - reflexivity.
Defined.

(** *** Invariants of the reachable states *)

Lemma offer_chan_ok m r h : Forall chan_ok h -> Forall chan_ok (offer m r h).
Proof.
  intros Hall. unfold offer. destruct (h !! r) as [c|] eqn:Hc; [|done].
  unfold try_send.
  destruct (decide (length (ch_buf c) < ch_cap c)%nat) as [Hroom|]; [|done].
  apply Forall_insert; [done|].
  rewrite Forall_lookup in Hall. destruct (Hall r c Hc) as [Hcap Hlen].
  split; simpl; [done|]. rewrite length_app. simpl. lia.
Qed.

Lemma fanout_chan_ok m (order : list (string * nat)) : forall h,
  Forall chan_ok h ->
  Forall chan_ok (foldl (fun h (e : string * nat) => offer m e.2 h) h order).
Proof.
  induction order as [|e rest IH]; intros h Hall; simpl; [done|].
  apply IH. by apply offer_chan_ok.
Qed.

Lemma step_chan_ok a s s' :
  step a s = Some s' -> Forall chan_ok (heap s) -> Forall chan_ok (heap s').
Proof.
  intros Hstep Hall. destruct a as [id|id ok|c ok|c|m]; simpl in Hstep.
  - injection Hstep as <-. simpl. apply Forall_app. split; [done|].
    constructor; [|constructor]. split; simpl; lia.
  - injection Hstep as <-. unfold socketHandler.
    destruct (String.eqb id EmptyString); [done|]. by destruct ok.
  - apply deliver_Some in Hstep
      as (h & r & ch & val & rest & _ & _ & _ & Hch & Hbuf & -> & _).
    apply Forall_insert; [done|].
    rewrite Forall_lookup in Hall. destruct (Hall r ch Hch) as [Hcap Hlen].
    rewrite Hbuf in Hlen. split; simpl in *; [done|lia].
  - unfold peer_close in Hstep. destruct (conns s !! c); [|done].
    by injection Hstep as <-.
  - injection Hstep as <-. by apply fanout_chan_ok.
Qed.

(** X8.  In every state the process reaches from its start, every channel
    has the capacity 10 that [registerHandler] gave it and holds at most 10
    records: a subscriber that does not read costs no more than that. *)
Theorem queues_bounded (acts : list action) (s : server) :
  run acts init = Some s -> Forall chan_ok (heap s).
Proof.
  assert (H : forall s0, Forall chan_ok (heap s0) -> run acts s0 = Some s ->
                         Forall chan_ok (heap s)).
  { induction acts as [|a rest IH]; intros s0 H0; simpl.
    - by intros [= <-].
    - destruct (step a s0) as [s1|] eqn:Hs; [|done]. simpl.
      apply IH. by apply (step_chan_ok a s0). }
  apply H. constructor.
Qed.

Lemma queues_bounded_witness :
  Forall chan_ok (heap (after (full_and_empty ++ [Publish rec1; Publish rec2]))).
Proof.
  apply (queues_bounded (full_and_empty ++ [Publish rec1; Publish rec2])).
  vm_compute. reflexivity.
Defined.

Lemma step_handler_ok a s s' :
  step a s = Some s' -> Forall handler_ok (conns s) -> Forall handler_ok (conns s').
Proof.
  intros Hstep Hall. destruct a as [id|id ok|c ok|c|m]; simpl in Hstep.
  - by injection Hstep as <-.
  - injection Hstep as <-. unfold socketHandler.
    destruct (String.eqb id EmptyString); [done|]. destruct ok; [|done].
    simpl. apply Forall_app. split; [done|].
    constructor; [|constructor]. by left.
  - apply deliver_Some in Hstep
      as (h & r & ch & val & rest & Hh & Hrun & _ & _ & _ & _ & Hcase).
    rewrite Forall_lookup in Hall. pose proof (Hall c h Hh) as Hok.
    destruct Hok as [(_ & Hcl & Hrw)|(Hstop & _)]; [|congruence].
    destruct Hcase as [(_ & _ & ->)|(_ & _ & ->)];
      (apply Forall_insert; [by apply Forall_lookup|]).
    + left. simpl. by rewrite Hrw.
    + right. simpl. split; [done|]. split; [done|]. exists val. by rewrite Hrw.
  - unfold peer_close in Hstep. destruct (conns s !! c) as [h|] eqn:Hh; [|done].
    injection Hstep as <-. simpl. apply Forall_insert; [done|].
    rewrite Forall_lookup in Hall. by apply (Hall c h Hh).
  - by injection Hstep as <-.
Qed.

(** X9.  In every state the process reaches, what a handler has written to
    its connection is what it has received from its queue, in the same
    order, but for at most the last value received (the one whose write
    failed, after a teardown): no record is written twice, out of order, or
    without having come out of the handler's queue. *)
Theorem handlers_write_what_they_receive (acts : list action) (s : server) :
  run acts init = Some s -> Forall writes_received (conns s).
Proof.
  assert (H : forall s0, Forall handler_ok (conns s0) -> run acts s0 = Some s ->
                         Forall handler_ok (conns s)).
  { induction acts as [|a rest IH]; intros s0 H0; simpl.
    - by intros [= <-].
    - destruct (step a s0) as [s1|] eqn:Hs; [|done]. simpl.
      apply IH. by apply (step_handler_ok a s0). }
  intros Hrun. specialize (H init ltac:(constructor) Hrun).
  eapply Forall_impl; [exact H|].
  intros h [(_ & _ & Heq)|(_ & _ & val & Heq)].
  - exists []. rewrite app_nil_r. split; [exact Heq|simpl; lia].
  - exists [val]. split; [exact Heq|simpl; lia].
Qed.

Lemma handlers_write_what_they_receive_witness :
  Forall writes_received
    (conns (after (one_subscriber ++ [Publish rec0; Publish rec1;
                                      Deliver 0 true; Deliver 0 false]))).
Proof.
  apply (handlers_write_what_they_receive
           (one_subscriber ++ [Publish rec0; Publish rec1;
                               Deliver 0 true; Deliver 0 false])).
  vm_compute. reflexivity.
Defined.

(** X10.  In every state the process reaches, the registry names channels
    that exist, no channel under two identifiers, and every channel a
    handler holds exists. *)
Theorem reachable_well_formed (acts : list action) (s : server) :
  run acts init = Some s -> wf s.
Proof. intros Hrun. exact (wf_run acts init s wf_init Hrun). Qed.

Lemma reachable_well_formed_witness :
  wf (after (twin_run ++ [Deliver 0 false; Register "ab"])).
Proof.
  apply (reachable_well_formed (twin_run ++ [Deliver 0 false; Register "ab"])).
  vm_compute. reflexivity.
Defined.

(** *** Register, connect, publish, deliver *)

(** X11.  From any well-formed hub: a client registers under [id], connects
    with [id], a record is published and its handler takes a turn with a
    write that succeeds.  Then the handler has received and written exactly
    that record, its queue is empty again, and [id] is still registered
    under its new channel.  Nothing published before the registration is
    delivered: the new queue starts empty. *)
Theorem register_connect_receive (s : server) (id : string) (m : msg) :
  wf s -> id ≠ EmptyString ->
  let s1 := (registerHandler id s).1 in
  let s2 := (socketHandler id true s1).1 in
  let c := length (conns s) in
  let r := length (heap s) in
  (socketHandler id true s1).2 = Upgraded c /\
  buffer r s2 = [] /\
  exists s4,
    deliver c true (publish m s2) = Some s4 /\
    conns s4 !! c = Some (Handler id (Some r) true false true [m] [m]) /\
    buffer r s4 = [] /\
    clients s4 !! id = Some r.
Proof.
  intros Hwf Hid s1 s2 c r.
  assert (Hs2 : s2 = Server (heap s ++ [make_chan 10])
                       (<[id := r]> (clients s))
                       (conns s ++ [Handler id (Some r) true false true [] []])).
  { unfold s2, s1, socketHandler.
    destruct (String.eqb_spec id EmptyString) as [|_]; [done|].
    simpl. by rewrite lookup_insert_eq. }
  assert (Hup : (socketHandler id true s1).2 = Upgraded c).
  { unfold s1, socketHandler.
    by destruct (String.eqb_spec id EmptyString) as [|_]. }
  assert (Hwf2 : wf s2) by (by apply wf_socketHandler, wf_registerHandler).
  assert (Hreg : clients s2 !! id = Some r)
    by (rewrite Hs2; simpl; apply lookup_insert_eq).
  assert (Hch : heap s2 !! r = Some (make_chan 10)).
  { rewrite Hs2. simpl. unfold r. by rewrite lookup_app_r, Nat.sub_diag. }
  assert (Hcn : conns s2 !! c
                = Some (Handler id (Some r) true false true [] [])).
  { rewrite Hs2. simpl. unfold c. by rewrite lookup_app_r, Nat.sub_diag. }
  split; [exact Hup|]. split; [by rewrite (buffer_lookup r s2 _ Hch)|].
  pose proof (publish_registered m s2 id r _ Hwf2 Hreg Hch) as Hpub.
  change (offered m (make_chan 10)) with (Chan 10 [m]) in Hpub.
  unfold deliver. cbn [conns publish publish_in]. rewrite Hcn.
  cbn [mbind option_bind h_running h_ch].
  change (foldl _ (heap s2) _) with (heap (publish m s2)). rewrite Hpub.
  cbn [mbind option_bind try_recv ch_buf ch_cap andb h_peer].
  eexists. split; [reflexivity|]. cbn [conns heap clients].
  split; [|split].
  - rewrite list_lookup_insert_eq by (by apply lookup_lt_Some in Hcn). done.
  - unfold buffer. cbn [heap].
    rewrite list_lookup_insert_eq
      by (change (foldl _ (heap s2) _) with (heap (publish m s2));
          by apply lookup_lt_Some in Hpub).
    done.
  - exact Hreg.
Qed.

Lemma register_connect_receive_witness :
  exists s4,
    deliver 0 true (publish rec0
      (socketHandler "ab" true (registerHandler "ab" init).1).1) = Some s4 /\
    conns s4 !! 0%nat
      = Some (Handler "ab" (Some 0%nat) true false true [rec0] [rec0]).
Proof.
  destruct (register_connect_receive init "ab" rec0 wf_init ltac:(done))
    as (_ & _ & s4 & Hd & Hh & _).
  exists s4. split; [exact Hd|exact Hh].
Defined.

(** *** The teardown removes by identifier *)

(** X12.  When a write returns an error, the deferred
    [delete(clients, id)] removes whatever the registry holds under the
    identifier of the failing handler.  So when another
    handler reads from the channel registered under that identifier (a
    second connection with the same identifier, or a later subscriber whose
    random identifier collided), the failure of the first cuts the other
    off: it is left as it was, its loop still running, but its channel is
    out of the registry and nothing published later reaches it. *)
Theorem teardown_cuts_off_same_id
  (s s' : server) (c c2 : nat) (h h2 : handler) (r2 : nat) :
  wf s -> deliver c false s = Some s' ->
  conns s !! c = Some h ->
  c2 ≠ c -> conns s !! c2 = Some h2 -> h_ch h2 = Some r2 ->
  clients s !! h_id h = Some r2 ->
  clients s' !! h_id h = None /\
  conns s' !! c2 = Some h2 /\
  forall ms,
    conns (publish_all ms s') !! c2 = Some h2 /\
    heap (publish_all ms s') !! r2 = heap s' !! r2.
Proof.
  intros Hwf Hd Hh Hne Hh2 Hr2 Hreg.
  pose proof Hd as Hd'.
  apply deliver_Some in Hd'
    as (h0 & r & ch & val & rest & Hh0 & _ & _ & _ & _ & _ & Hcase).
  rewrite Hh in Hh0. injection Hh0 as <-.
  destruct Hcase as [(Hok & _)|(_ & Hcl & Hcs)]; [congruence|].
  assert (Hgone : forall id, clients s' !! id ≠ Some r2).
  { intros id. rewrite Hcl. destruct (decide (id = h_id h)) as [->|Hid].
    - by rewrite lookup_delete_eq.
    - rewrite lookup_delete_ne by done. intros Hx. apply Hid.
      by apply (wf_inj s Hwf id (h_id h) r2). }
  assert (Hkeep : conns s' !! c2 = Some h2).
  { rewrite Hcs. by rewrite list_lookup_insert_ne. }
  split; [rewrite Hcl; apply lookup_delete_eq|]. split; [exact Hkeep|].
  intros ms. destruct (publish_all_frame ms s') as (_ & Hconns & Hheap).
  split; [by rewrite Hconns|]. by apply Hheap.
Qed.

Lemma teardown_cuts_off_same_id_witness :
  let s' := after (twin_run ++ [Deliver 0 false]) in
  clients s' !! "ab"%string = None /\
  conns s' !! 1%nat = Some (Handler "ab" (Some 0%nat) true false true [] []) /\
  forall ms,
    conns (publish_all ms s') !! 1%nat
      = Some (Handler "ab" (Some 0%nat) true false true [] []) /\
    heap (publish_all ms s') !! 0%nat = heap s' !! 0%nat.
Proof.
  apply (teardown_cuts_off_same_id (after twin_run)
           (after (twin_run ++ [Deliver 0 false])) 0 1
           (Handler "ab" (Some 0%nat) true false true [] [])
           (Handler "ab" (Some 0%nat) true false true [] []) 0).
  - apply wf_after.
  - vm_compute. reflexivity.
  - reflexivity.
  - lia.
  - reflexivity.
  - reflexivity.
  - vm_compute. reflexivity.
Defined.

(** *** A torn down handler stays so *)

Lemma step_stopped a s s' c h :
  step a s = Some s' -> conns s !! c = Some h -> h_running h = false ->
  exists h', conns s' !! c = Some h' /\ h_running h' = false /\
             h_id h' = h_id h /\ h_closed h' = h_closed h /\
             h_recv h' = h_recv h /\ h_written h' = h_written h.
Proof.
  intros Hstep Hh Hstop.
  pose proof (lookup_lt_Some _ _ _ Hh) as Hc.
  destruct a as [id|id ok|c' ok|c'|m]; simpl in Hstep.
  - injection Hstep as <-. by exists h.
  - injection Hstep as <-. unfold socketHandler.
    destruct (String.eqb id EmptyString); [by exists h|].
    destruct ok; [|by exists h]. simpl. exists h. by rewrite lookup_app_l.
  - apply deliver_Some in Hstep
      as (h0 & r & ch & val & rest & Hh0 & Hrun & _ & _ & _ & _ & Hcase).
    assert (c' ≠ c) by (intros ->; congruence).
    exists h. destruct Hcase as [(_ & _ & ->)|(_ & _ & ->)];
      by rewrite list_lookup_insert_ne.
  - unfold peer_close in Hstep.
    destruct (conns s !! c') as [h0|] eqn:Hh0; [|done].
    injection Hstep as <-. simpl. destruct (decide (c' = c)) as [->|Hne].
    + rewrite Hh in Hh0. injection Hh0 as <-.
      eexists. rewrite list_lookup_insert_eq by done. done.
    + exists h. by rewrite list_lookup_insert_ne.
  - injection Hstep as <-. by exists h.
Qed.

(** X13.  A handler whose loop is over never runs again: whatever happens
    to the process afterwards, it stays stopped, with the same identifier
    and the same logs, and it takes no further turn.  Only a new request to
    [socketHandler] gives the identifier a delivery loop again. *)
Theorem stopped_handler_stays_stopped
  (acts : list action) (s s' : server) (c : nat) (h : handler) :
  conns s !! c = Some h -> h_running h = false -> run acts s = Some s' ->
  (exists h', conns s' !! c = Some h' /\ h_running h' = false /\
              h_id h' = h_id h /\ h_closed h' = h_closed h /\
              h_recv h' = h_recv h /\ h_written h' = h_written h) /\
  forall ok, deliver c ok s' = None.
Proof.
  intros Hh Hstop Hrun.
  assert (H : exists h', conns s' !! c = Some h' /\ h_running h' = false /\
              h_id h' = h_id h /\ h_closed h' = h_closed h /\
              h_recv h' = h_recv h /\ h_written h' = h_written h).
  { revert s h Hh Hstop Hrun.
    induction acts as [|a rest IH]; intros s h Hh Hstop Hrun; simpl in Hrun.
    - injection Hrun as <-. by exists h.
    - destruct (step a s) as [s1|] eqn:Hs; [|done]. simpl in Hrun.
      destruct (step_stopped a s s1 c h Hs Hh Hstop)
        as (h1 & Hh1 & Hstop1 & E1 & E2 & E3 & E4).
      destruct (IH s1 h1 Hh1 Hstop1 Hrun) as (h' & ? & ? & ? & ? & ? & ?).
      exists h'. repeat split; congruence. }
  split; [exact H|]. intros ok. destruct H as (h' & Hh' & Hstop' & _).
  unfold deliver. rewrite Hh'. simpl. by rewrite Hstop'.
Qed.

Lemma stopped_handler_stays_stopped_witness :
  deliver 0 true (after (one_subscriber ++
                         [Publish rec0; Deliver 0 false; Register "ab";
                          Publish rec1])) = None.
Proof.
  apply (stopped_handler_stays_stopped [Register "ab"; Publish rec1]
           (after (one_subscriber ++ [Publish rec0; Deliver 0 false]))
           (after (one_subscriber ++ [Publish rec0; Deliver 0 false;
                                      Register "ab"; Publish rec1]))
           0 (Handler "ab" (Some 0%nat) true true false [rec0] [])).
  - vm_compute. reflexivity.
  - reflexivity.
  - vm_compute. reflexivity.
Defined.

(** *** The health count *)

(** X14.  After every step of the process [healthHandler] answers 200 with
    this number in decimal: a registration adds one to the number of
    identifiers, unless the identifier was already there; a turn of a
    handler whose write returns an error takes one off, unless its
    identifier was already gone; every other step, a turn whose write
    returns no error among them, leaves the number as it was.  Connections
    are not counted: an upgrade changes nothing, and a subscriber that never
    connects is counted all the same. *)
Theorem health_counts_identifiers (a : action) (s s' : server) :
  step a s = Some s' ->
  healthHandler s'
  = Status 200
      (pretty
         match a with
         | Register id =>
             if decide (clients s !! id = None) then S (size (clients s))
             else size (clients s)
         | Deliver c false =>
             match conns s !! c with
             | Some h =>
                 if decide (clients s !! h_id h = None) then size (clients s)
                 else pred (size (clients s))
             | None => size (clients s)
             end
         | _ => size (clients s)
         end).
Proof.
  intros Hstep. unfold healthHandler. do 2 f_equal.
  destruct a as [id|id ok|c ok|c|m]; simpl in Hstep.
  - injection Hstep as <-. simpl. rewrite map_size_insert.
    destruct (decide (clients s !! id = None)) as [->|Hsome]; [done|].
    by destruct (clients s !! id).
  - injection Hstep as <-. unfold socketHandler.
    destruct (String.eqb id EmptyString); [done|]. by destruct ok.
  - apply deliver_Some in Hstep
      as (h & r & ch & val & rest & -> & _ & _ & _ & _ & _ & Hcase).
    destruct Hcase as [(-> & -> & _)|(-> & -> & _)]; [done|].
    rewrite map_size_delete.
    destruct (decide (clients s !! h_id h = None)) as [->|Hsome]; [done|].
    by destruct (clients s !! h_id h).
  - unfold peer_close in Hstep. destruct (conns s !! c); [|done].
    by injection Hstep as <-.
  - by injection Hstep as <-.
Qed.

Lemma health_counts_identifiers_witness :
  healthHandler (after (one_subscriber ++ [Register "cd"; Publish rec0;
                                           Deliver 0 false]))
  = Status 200 "1".
Proof.
  rewrite (health_counts_identifiers (Deliver 0 false)
             (after (one_subscriber ++ [Register "cd"; Publish rec0]))
             (after (one_subscriber ++ [Register "cd"; Publish rec0;
                                        Deliver 0 false]))).
  - vm_compute. reflexivity.
  - vm_compute. reflexivity.
Defined.
